(** * aioshelly: the Gen2 RPC device controller

    A shallow embedding of [aioshelly/rpc_device/device.py]: the deep
    status merge [mergedicts], the notification dispatcher
    [_on_notification], the lifecycle method [initialize], the read
    accessors and [set_profile] of the class [RpcDevice].

    Python dictionaries are finite maps with string keys ([gmap string
    value]); equality of maps is Python's [==] on dictionaries, which
    ignores insertion order.  JSON numbers are integers here. *)

From stdpp Require Import base option list gmap strings.
From Stdlib Require Import ZArith.

#[local] Set Warnings "-register-all".
#[local] Open Scope string_scope.

(** ** JSON-like values *)

Inductive value : Type :=
| VNone
| VBool (b : bool)
| VInt (z : Z)
| VStr (s : string)
| VList (l : list value)
| VDict (d : gmap string value).

Abbreviation dict := (gmap string value).

(** [isinstance(v, dict)] *)
Definition is_dict (v : value) : bool :=
  match v with VDict _ => true | _ => false end.

(** Python truthiness, as used by [bool(...)] and by [if x and ...]. *)
Definition truthy (v : value) : bool :=
  match v with
  | VNone => false
  | VBool b => b
  | VInt z => negb (Z.eqb z 0)
  | VStr s => negb (String.eqb s "")
  | VList l => match l with [] => false | _ => true end
  | VDict d => negb (bool_decide (d = ∅))
  end.

(** ** [mergedicts]

    <<
    def mergedicts(dict1, dict2):
        result = dict(dict1)
        result.update(dict2)
        for key, value in result.items():
            if isinstance(value, dict) and isinstance(dict1.get(key), dict):
                result[key] = mergedicts(dict1[key], value)
        return result
    >>

    Key by key: [o1] is [dict1.get(key)], [o2] is [dict2.get(key)], and
    [val] is the [value] that [result] holds at [key] after
    [result.update(dict2)].
    The recursion is on the sub-dictionary of [dict1], so the function is
    a fixpoint on the first argument seen as a value. *)

Fixpoint merge_into (v1 : value) (dict2 : dict) {struct v1} : dict :=
  match v1 with
  | VDict dict1 =>
      merge (fun o1 o2 : option value =>
               let val := match o2 with Some v => Some v | None => o1 end in
               match val, o1 with
               | Some (VDict dv), Some (VDict _ as sub1) =>
                   Some (VDict (merge_into sub1 dv))
               | _, _ => val
               end) dict1 dict2
  | _ => dict2
  end.

Definition mergedicts (dict1 dict2 : dict) : dict :=
  merge_into (VDict dict1) dict2.

(** What the loop body stores at [key], given the value found there. *)
Definition merged_value (dict1 : dict) (key : string) (val : value) : value :=
  match val, dict1 !! key with
  | VDict dv, Some (VDict sub1) => VDict (mergedicts sub1 dv)
  | _, _ => val
  end.

(** The size of a value, for induction through nested dictionaries. *)

Fixpoint vsize (v : value) : nat :=
  match v with
  | VDict d => S (map_fold (fun _ w n => vsize w + n) 0 d)
  | _ => 1
  end.

(** ** Exceptions and update kinds

    The module [exceptions.py] is not part of the sources at hand; the
    classes that [device.py] imports from it are taken as distinct
    classes, none a subclass of another, as the error taxonomy lists
    them.  [ClientError], [TimeoutError] and [OSError] stand for
    [aiohttp.ClientError], [asyncio.TimeoutError] and [OSError];
    [CancelledByTimeout] is the cancellation that the expired
    [async_timeout.timeout] block of [initialize] throws into the task at
    the [await] where it is suspended; [OtherError] stands for every
    other exception no [except] clause of this file names (a cancellation
    from outside, for one).  An exception is its class: the message and
    the wrapped cause are left out. *)

Inductive exn : Type :=
| RuntimeError
| InvalidAuthError
| MacAddressMismatchError
| NotInitialized
| NotSupported
| RpcCallError
| WrongShellyGen
| DeviceConnectionError
| ClientError
| TimeoutError
| OSError
| KeyError
| AttributeError
| CancelledByTimeout
| OtherError.

#[global] Instance exn_eq_dec : EqDecision exn.
Proof. solve_decision. Defined.

(** [const.CONNECT_ERRORS] *)
Definition CONNECT_ERRORS : list exn :=
  [ClientError; TimeoutError; DeviceConnectionError; OSError].

Definition is_connect_error (e : exn) : bool :=
  bool_decide (e ∈ CONNECT_ERRORS).

(** [const.NOTIFY_WS_CLOSED] *)
Definition NOTIFY_WS_CLOSED : string := "NotifyWebSocketClosed".

Inductive RpcUpdateType : Type :=
| EVENT
| STATUS
| INITIALIZED
| DISCONNECTED
| UNKNOWN.

(** ** The controller's state *)

(** The fields of [ConnectionOptions] that [device.py] reads. *)
Record ConnectionOptions : Type := mkOptions {
  ip_address : string;
  username : option string;
  password : option string;
  device_mac : option string
}.

(** A subscriber callback, known by a name. *)
Definition listener : Type := nat.

(** The attributes of an [RpcDevice] instance.  [_unsub_ws] tells
    whether the unsubscribe function is still held ([None] after the
    first disconnect).  The transport [_wsrpc] and the HTTP session live
    outside: the controller reaches them through calls (see [call]). *)
Record RpcDevice : Type := mkDevice {
  options : ConnectionOptions;
  _shelly : option dict;
  _status : option dict;
  _event : option dict;
  _config : option dict;
  _device_info : option dict;
  _profiles : option value;
  _unsub_ws : bool;
  _update_listener : option listener;
  initialized : bool;
  _initializing : bool;
  _last_error : option exn
}.

(** [RpcDevice.__init__] *)
Definition init_device (opts : ConnectionOptions) : RpcDevice :=
  {| options := opts;
     _shelly := None;
     _status := None;
     _event := None;
     _config := None;
     _device_info := None;
     _profiles := None;
     _unsub_ws := true;
     _update_listener := None;
     initialized := false;
     _initializing := false;
     _last_error := None |}.

(** Attribute assignments. *)
Definition set_shelly (x : option dict) (d : RpcDevice) : RpcDevice :=
  mkDevice (options d) x (_status d) (_event d) (_config d) (_device_info d)
           (_profiles d) (_unsub_ws d) (_update_listener d) (initialized d)
           (_initializing d) (_last_error d).

Definition set_status (x : option dict) (d : RpcDevice) : RpcDevice :=
  mkDevice (options d) (_shelly d) x (_event d) (_config d) (_device_info d)
           (_profiles d) (_unsub_ws d) (_update_listener d) (initialized d)
           (_initializing d) (_last_error d).

Definition set_event (x : option dict) (d : RpcDevice) : RpcDevice :=
  mkDevice (options d) (_shelly d) (_status d) x (_config d) (_device_info d)
           (_profiles d) (_unsub_ws d) (_update_listener d) (initialized d)
           (_initializing d) (_last_error d).

Definition set_config (x : option dict) (d : RpcDevice) : RpcDevice :=
  mkDevice (options d) (_shelly d) (_status d) (_event d) x (_device_info d)
           (_profiles d) (_unsub_ws d) (_update_listener d) (initialized d)
           (_initializing d) (_last_error d).

Definition set_profiles (x : option value) (d : RpcDevice) : RpcDevice :=
  mkDevice (options d) (_shelly d) (_status d) (_event d) (_config d)
           (_device_info d) x (_unsub_ws d) (_update_listener d)
           (initialized d) (_initializing d) (_last_error d).

Definition set_unsub_ws (x : bool) (d : RpcDevice) : RpcDevice :=
  mkDevice (options d) (_shelly d) (_status d) (_event d) (_config d)
           (_device_info d) (_profiles d) x (_update_listener d)
           (initialized d) (_initializing d) (_last_error d).

Definition set_update_listener (x : option listener) (d : RpcDevice)
  : RpcDevice :=
  mkDevice (options d) (_shelly d) (_status d) (_event d) (_config d)
           (_device_info d) (_profiles d) (_unsub_ws d) x
           (initialized d) (_initializing d) (_last_error d).

Definition set_initialized (x : bool) (d : RpcDevice) : RpcDevice :=
  mkDevice (options d) (_shelly d) (_status d) (_event d) (_config d)
           (_device_info d) (_profiles d) (_unsub_ws d) (_update_listener d)
           x (_initializing d) (_last_error d).

Definition set_initializing (x : bool) (d : RpcDevice) : RpcDevice :=
  mkDevice (options d) (_shelly d) (_status d) (_event d) (_config d)
           (_device_info d) (_profiles d) (_unsub_ws d) (_update_listener d)
           (initialized d) x (_last_error d).

Definition set_last_error (x : option exn) (d : RpcDevice) : RpcDevice :=
  mkDevice (options d) (_shelly d) (_status d) (_event d) (_config d)
           (_device_info d) (_profiles d) (_unsub_ws d) (_update_listener d)
           (initialized d) (_initializing d) x.

(** ** Read accessors (the [@property] methods)

    Each returns [inl e] when the property raises [e]. *)

Definition shelly (d : RpcDevice) : exn + dict :=
  match _shelly d with
  | None => inl NotInitialized
  | Some sh => inr sh
  end.

Definition requires_auth (d : RpcDevice) : exn + bool :=
  match shelly d with
  | inl e => inl e
  | inr sh =>
      match sh !! "auth_en" with
      | None => inl WrongShellyGen
      | Some v => inr (truthy v)
      end
  end.

Definition status (d : RpcDevice) : exn + dict :=
  if negb (initialized d) then inl NotInitialized
  else match _status d with
       | None => inl InvalidAuthError
       | Some st => inr st
       end.

Definition event (d : RpcDevice) : exn + option dict :=
  if negb (initialized d) then inl NotInitialized
  else inr (_event d).

Definition config (d : RpcDevice) : exn + dict :=
  if negb (initialized d) then inl NotInitialized
  else match _config d with
       | None => inl InvalidAuthError
       | Some c => inr c
       end.

(** [self._shelly] is a dictionary whenever [initialized] is set; on
    [None] the test ["profile" not in self._shelly] is a [TypeError],
    which [OtherError] stands for. *)
Definition profiles (d : RpcDevice) : exn + option value :=
  if negb (initialized d) then inl NotInitialized
  else match _shelly d with
       | None => inl OtherError
       | Some sh =>
           match sh !! "profile" with
           | None => inl NotSupported
           | Some _ => inr (_profiles d)
           end
       end.

Definition profile (d : RpcDevice) : exn + value :=
  if negb (initialized d) then inl NotInitialized
  else match _shelly d with
       | None => inl OtherError
       | Some sh =>
           match sh !! "profile" with
           | None => inl NotSupported
           | Some v => inr v
           end
       end.

Definition last_error (d : RpcDevice) : exn + option exn :=
  inr (_last_error d).

(** ** Calls that leave the controller

    What the controller asks of its collaborators: the identity probe
    [get_info], the transport [self._wsrpc], the unsubscribe function,
    the event loop and the subscriber.  [ans c] is what comes back;
    [inl e] is the exception [e] that the [await] raises.  For the
    transport's [call], [inl TimeoutError] is what the timeout block of
    [call_rpc] around it raises when it expires, and
    [inl CancelledByTimeout] at any [await] is the enclosing timeout
    block of [initialize] expiring there.  The calls made without [await]
    are taken to return normally and to leave the controller's attributes
    alone. *)

Inductive call : Type :=
| GetInfo (ip : string) (mac : option string)
| WsSetAuthData (domain : value) (user pass : string)
| WsConnect
| WsDisconnect
| WsCall (method : string) (params : option dict)
| WsConnected
| UnsubWs
| Sleep (seconds : nat)
| CreateTask_async_init
| Listener (l : listener) (update_type : RpcUpdateType).

Definition ans (c : call) : Type :=
  match c with
  | GetInfo _ _ => (exn + dict)%type
  | WsSetAuthData _ _ _ => unit
  | WsConnect => (exn + unit)%type
  | WsDisconnect => (exn + unit)%type
  | WsCall _ _ => (exn + dict)%type
  | WsConnected => bool
  | UnsubWs => unit
  | Sleep _ => unit
  | CreateTask_async_init => unit
  | Listener _ _ => unit
  end.

(** The calls under [await]: the task is suspended there and other code
    of the event loop runs before it resumes. *)
Definition suspends (c : call) : bool :=
  match c with
  | GetInfo _ _ | WsConnect | WsDisconnect | WsCall _ _ | Sleep _ => true
  | _ => false
  end.

(** ** Coroutines

    A method body is a tree: it ends with a result, reads or writes the
    instance attributes, or makes a call and goes on with the answer. *)

Inductive co (A : Type) : Type :=
| Ret (a : A)
| Get (k : RpcDevice -> co A)
| Put (d : RpcDevice) (k : co A)
| Vis (c : call) (k : ans c -> co A).

Arguments Ret {A} a.
Arguments Get {A} k.
Arguments Put {A} d k.
Arguments Vis {A} c k.

Fixpoint bind {A B : Type} (t : co A) (f : A -> co B) : co B :=
  match t with
  | Ret a => f a
  | Get k => Get (fun d => bind (k d) f)
  | Put d k => Put d (bind k f)
  | Vis c k => Vis c (fun x => bind (k x) f)
  end.

(** Methods that may raise return [exn + A]. *)
Definition ret {A : Type} (a : A) : co (exn + A) := Ret (inr a).

Definition raise {A : Type} (e : exn) : co (exn + A) := Ret (inl e).

Definition bindE {A B : Type} (m : co (exn + A)) (f : A -> co (exn + B))
  : co (exn + B) :=
  bind m (fun r => match r with inl e => Ret (inl e) | inr a => f a end).

Notation "'let*' x ':=' m 'in' k" := (bindE m (fun x => k))
  (at level 10, x pattern, m at level 100, k at level 200).

(** [try: m except ...: h], where [h] re-raises what no clause catches. *)
Definition try_except {A : Type} (m : co (exn + A))
  (h : exn -> co (exn + A)) : co (exn + A) :=
  bind m (fun r => match r with inl e => h e | inr a => Ret (inr a) end).

(** [try: m finally: fin] *)
Definition try_finally {A : Type} (m : co (exn + A)) (fin : co unit)
  : co (exn + A) :=
  bind m (fun r => bind fin (fun _ => Ret r)).

(** [async with async_timeout.timeout(...): m]: on the way out the block
    turns its own cancellation into [asyncio.TimeoutError]. *)
Definition with_timeout {A : Type} (m : co (exn + A)) : co (exn + A) :=
  try_except m
    (fun err =>
       if bool_decide (err = CancelledByTimeout) then raise TimeoutError
       else raise err).

Definition get_self : co (exn + RpcDevice) := Get (fun d => ret d).

Definition modify (f : RpcDevice -> RpcDevice) : co (exn + unit) :=
  Get (fun d => Put (f d) (ret tt)).

(** Reading a property. *)
Definition prop {A : Type} (p : RpcDevice -> exn + A) : co (exn + A) :=
  Get (fun d => Ret (p d)).

(** [await] of a call that may raise. *)
Definition await_get_info (ip : string) (mac : option string)
  : co (exn + dict) := Vis (GetInfo ip mac) Ret.

Definition await_connect : co (exn + unit) := Vis WsConnect Ret.

Definition await_disconnect : co (exn + unit) := Vis WsDisconnect Ret.

Definition await_call (method : string) (params : option dict)
  : co (exn + dict) := Vis (WsCall method params) Ret.

(** A call that returns normally. *)
Definition perform (c : call) (k : ans c -> unit) : co (exn + unit) :=
  Vis c (fun x => ret (k x)).

(** [connected]: the liveness flag of the transport. *)
Definition connected : co (exn + bool) :=
  Vis WsConnected (fun b : bool => ret b).

(** ** Methods of [RpcDevice] *)

Definition call_rpc (method : string) (params : option dict)
  : co (exn + dict) :=
  try_except (await_call method params)
    (fun err =>
       if bool_decide (err = InvalidAuthError \/ err = RpcCallError) then
         let* _ := modify (set_last_error (Some err)) in
         raise err
       else if is_connect_error err then
         let* _ := modify (set_last_error (Some DeviceConnectionError)) in
         raise DeviceConnectionError
       else raise err).

Definition update_status : co (exn + unit) :=
  let* r := call_rpc "Shelly.GetStatus" None in
  modify (set_status (Some r)).

Definition update_config : co (exn + unit) :=
  let* r := call_rpc "Shelly.GetConfig" None in
  modify (set_config (Some r)).

Definition update_profiles : co (exn + unit) :=
  let* sh := prop shelly in
  if bool_decide (is_Some (sh !! "profile")) then
    let* r := call_rpc "Shelly.ListProfiles" None in
    match r !! "profiles" with
    | None => raise KeyError
    | Some ps => modify (set_profiles (Some ps))
    end
  else ret tt.

Definition _disconnect_websocket : co (exn + unit) :=
  let* self := get_self in
  let* _ := (if _unsub_ws self then
               let* _ := perform UnsubWs (fun _ => tt) in
               modify (set_unsub_ws false)
             else ret tt) in
  await_disconnect.

Definition shutdown : co (exn + unit) :=
  let* _ := modify (set_update_listener None) in
  _disconnect_websocket.

Definition subscribe_updates (update_listener : listener)
  : co (exn + unit) :=
  modify (set_update_listener (Some update_listener)).

(** The [try] block of [initialize], in three parts. *)

Definition probe_and_authenticate : co (exn + unit) :=
  let* self := get_self in
  let* info := await_get_info (ip_address (options self))
                              (device_mac (options self)) in
  let* _ := modify (set_shelly (Some info)) in
  let* auth := prop requires_auth in
  if auth : bool then
    let* self := get_self in
    match username (options self), password (options self) with
    | Some user, Some pass =>
        let* sh := prop shelly in
        match sh !! "auth_domain" with
        | None => raise KeyError
        | Some domain => perform (WsSetAuthData domain user pass) (fun _ => tt)
        end
    | _, _ => raise InvalidAuthError
    end
  else ret tt.

Definition connect_and_configure : co (exn + unit) :=
  let* _ := await_connect in
  let* _ := update_config in
  update_profiles.

(** [if not async_init or self._status is None: await self.update_status()] *)
Definition fetch_status_step (async_init : bool) : co (exn + unit) :=
  let* self := get_self in
  if negb async_init || bool_decide (_status self = None)
  then update_status
  else ret tt.

Definition initialize_try (async_init : bool) : co (exn + unit) :=
  let* _ := probe_and_authenticate in
  let* _ := with_timeout (let* _ := connect_and_configure in
                          fetch_status_step async_init) in
  modify (set_initialized true).

(** The [except] clauses of [initialize], in the order of the source. *)
Definition initialize_except (async_init : bool) (err : exn)
  : co (exn + unit) :=
  if bool_decide (err = InvalidAuthError) then
    let* _ := modify (set_last_error (Some InvalidAuthError)) in
    if negb async_init then
      let* _ := _disconnect_websocket in
      raise err
    else modify (set_initialized true)
  else if bool_decide (err = MacAddressMismatchError) then
    let* _ := modify (set_last_error (Some err)) in
    if negb async_init then
      let* _ := _disconnect_websocket in
      raise err
    else ret tt
  else if is_connect_error err || bool_decide (err = RpcCallError) then
    let* _ := modify (set_last_error (Some DeviceConnectionError)) in
    if negb async_init then
      let* _ := _disconnect_websocket in
      raise DeviceConnectionError
    else ret tt
  else raise err.

(** The [finally] clause. *)
Definition initialize_finally : co unit :=
  Get (fun self => Put (set_initializing false self) (Ret tt)).

Definition notify_listener (update_type : RpcUpdateType)
  : co (exn + unit) :=
  let* self := get_self in
  match _update_listener self with
  | Some l =>
      if initialized self
      then perform (Listener l update_type) (fun _ => tt)
      else ret tt
  | None => ret tt
  end.

Definition initialize (async_init : bool) : co (exn + unit) :=
  let* self := get_self in
  if _initializing self then raise RuntimeError
  else
    let* _ := modify (set_initializing true) in
    let* _ := modify (set_initialized false) in
    let* _ := try_finally
                (try_except (initialize_try async_init)
                            (initialize_except async_init))
                initialize_finally in
    notify_listener INITIALIZED.

Definition _async_init : co (exn + unit) :=
  let* _ := initialize true in
  await_disconnect.

(** The cache update of [_on_notification] and the update kind it
    settles on. *)
Definition classify_notification (method : string) (params : option dict)
  : co (exn + RpcUpdateType) :=
  let* self := get_self in
  match params with
  | Some params =>
      if String.eqb method "NotifyFullStatus" then
        let* _ := modify (set_status (Some params)) in
        ret STATUS
      else
        match (if String.eqb method "NotifyStatus" then _status self
               else None) with
        | Some old =>
            let* _ := modify (set_status (Some (mergedicts old params))) in
            ret STATUS
        | None =>
            if String.eqb method "NotifyEvent" then
              let* _ := modify (set_event (Some params)) in
              ret EVENT
            else ret UNKNOWN
        end
  | None =>
      if String.eqb method NOTIFY_WS_CLOSED then ret DISCONNECTED
      else ret UNKNOWN
  end.

Definition _on_notification (method : string) (params : option dict)
  : co (exn + unit) :=
  let* update_type := classify_notification method params in
  let* self := get_self in
  if negb (_initializing self) && negb (initialized self) then
    perform CreateTask_async_init (fun _ => tt)
  else notify_listener update_type.

(** [self._shelly['profile'] != profile_name] *)
Definition differs_from (v : value) (name : string) : bool :=
  match v with
  | VStr s => negb (String.eqb s name)
  | _ => true
  end.

(** The polling loop of [set_profile]; the source sets no bound on it,
    [polls] is the number of rounds followed here, and [None] says that
    the loop was still running after them. *)
Fixpoint await_profile (polls : nat) (profile_name : string)
  : co (option (exn + unit)) :=
  Get (fun self =>
    match _shelly self with
    | None => Ret (Some (inl OtherError))
    | Some sh =>
        match sh !! "profile" with
        | None => Ret (Some (inl KeyError))
        | Some v =>
            if differs_from v profile_name then
              match polls with
              | O => Ret None
              | S n =>
                  Vis (Sleep 1) (fun _ =>
                  Vis (GetInfo (ip_address (options self))
                               (device_mac (options self)))
                      (fun r =>
                         match r with
                         | inl e => Ret (Some (inl e))
                         | inr info =>
                             Get (fun now =>
                             Put (set_shelly (Some info) now)
                                 (await_profile n profile_name))
                         end))
              end
            else Ret (Some (inr tt))
        end
    end).

(** [set_profile]; [None] as in [await_profile].  On [self._shelly =
    None] the call [self._shelly.get] is an [AttributeError]. *)
Definition set_profile (polls : nat) (profile_name : string)
  : co (option (exn + unit)) :=
  Get (fun self =>
    match _shelly self with
    | None => Ret (Some (inl AttributeError))
    | Some sh =>
        if match sh !! "profile" with
           | Some v => truthy v && differs_from v profile_name
           | None => false
           end
        then
          bind (let* _ := call_rpc "Shelly.SetProfile"
                            (Some {[ "name" := VStr profile_name ]}) in
                let* _ := shutdown in
                perform (Sleep 2) (fun _ => tt))
               (fun r =>
                  match r with
                  | inl e => Ret (Some (inl e))
                  | inr _ =>
                      bind (await_profile polls profile_name)
                           (fun r =>
                              match r with
                              | Some (inr _) =>
                                  bind (initialize false)
                                       (fun r => Ret (Some r))
                              | other => Ret other
                              end)
                  end)
        else Ret (Some (inr tt))
    end).

(** ** The other read accessors *)

(** [ip_address] *)
Definition device_ip_address (d : RpcDevice) : string :=
  ip_address (options d).

(** [gen] *)
Definition gen (d : RpcDevice) : Z := 2.

(** [self.shelly[key]] *)
Definition shelly_item (key : string) (d : RpcDevice) : exn + value :=
  match shelly d with
  | inl e => inl e
  | inr sh =>
      match sh !! key with
      | None => inl KeyError
      | Some v => inr v
      end
  end.

Definition firmware_version : RpcDevice -> exn + value := shelly_item "fw_id".

Definition version : RpcDevice -> exn + value := shelly_item "ver".

Definition model : RpcDevice -> exn + value := shelly_item "model".

Definition hostname : RpcDevice -> exn + value := shelly_item "id".

(** [name]: [self.config["sys"]["device"].get("name") or self.hostname].
    Subscripting a value that is not a dictionary with a string is a
    [TypeError] ([OtherError] here), and [.get] on such a value is an
    [AttributeError]. *)
Definition name (d : RpcDevice) : exn + value :=
  match config d with
  | inl e => inl e
  | inr c =>
      match c !! "sys" with
      | None => inl KeyError
      | Some (VDict sys) =>
          match sys !! "device" with
          | None => inl KeyError
          | Some (VDict device) =>
              let n := default VNone (device !! "name") in
              if truthy n then inr n else hostname d
          | Some _ => inl AttributeError
          end
      | Some _ => inl OtherError
      end
  end.

(** ** The RPC methods *)

Definition trigger_ota_update (beta : bool) : co (exn + unit) :=
  let params : dict :=
    if beta then {[ "stage" := VStr "beta" ]}
    else {[ "stage" := VStr "stable" ]} in
  let* _ := call_rpc "Shelly.Update" (Some params) in
  ret tt.

Definition trigger_reboot (delay_ms : Z) : co (exn + unit) :=
  let* _ := call_rpc "Shelly.Reboot" (Some {[ "delay_ms" := VInt delay_ms ]}) in
  ret tt.

Definition script_list : co (exn + value) :=
  let* data := call_rpc "Script.List" None in
  match data !! "scripts" with
  | None => raise KeyError
  | Some scripts => ret scripts
  end.

Definition script_getcode (script_id : Z) : co (exn + dict) :=
  call_rpc "Script.GetCode" (Some {[ "id" := VInt script_id ]}).

Definition script_putcode (script_id : Z) (code : string) : co (exn + unit) :=
  let* _ := call_rpc "Script.PutCode"
              (Some {[ "id" := VInt script_id; "code" := VStr code ]}) in
  ret tt.

Definition script_create (script_name : string) : co (exn + unit) :=
  let* _ := call_rpc "Script.Create" (Some {[ "name" := VStr script_name ]}) in
  ret tt.

Definition script_start (script_id : Z) : co (exn + unit) :=
  let* _ := call_rpc "Script.Start" (Some {[ "id" := VInt script_id ]}) in
  ret tt.

Definition script_stop (script_id : Z) : co (exn + unit) :=
  let* _ := call_rpc "Script.Stop" (Some {[ "id" := VInt script_id ]}) in
  ret tt.

Definition ble_setconfig (enable enable_rpc : bool) : co (exn + dict) :=
  call_rpc "BLE.SetConfig"
    (Some {[ "config" :=
               VDict {[ "enable" := VBool enable;
                        "rpc" := VDict {[ "enable" := VBool enable_rpc ]} ]} ]}).

Definition ble_getconfig : co (exn + dict) := call_rpc "BLE.GetConfig" None.

Definition ws_setconfig (enable : bool) (server ssl_ca : string)
  : co (exn + dict) :=
  call_rpc "Ws.SetConfig"
    (Some {[ "config" :=
               VDict {[ "enable" := VBool enable;
                        "server" := VStr server;
                        "ssl_ca" := VStr ssl_ca ]} ]}).

Definition ws_getconfig : co (exn + dict) := call_rpc "Ws.GetConfig" None.

(** [v == server], for a string [server] *)
Definition equals_str (v : value) (server : string) : bool :=
  match v with
  | VStr s => String.eqb s server
  | _ => false
  end.

(** [update_outbound_websocket]; [ssl_ca] and [delay_ms] are the default
    ["*"] of [ws_setconfig] and the 3500 of the source. *)
Definition update_outbound_websocket (server : string) : co (exn + bool) :=
  let* ws_config := ws_getconfig in
  let* configured :=
    match ws_config !! "enable" with
    | None => raise KeyError
    | Some enable =>
        if truthy enable then
          match ws_config !! "server" with
          | None => raise KeyError
          | Some current => ret (equals_str current server)
          end
        else ret false
    end in
  if configured : bool then ret false
  else
    let* ws_enable := ws_setconfig true server "*" in
    match ws_enable !! "restart_required" with
    | None => raise KeyError
    | Some restart_required =>
        if truthy restart_required then
          let* _ := trigger_reboot 3500 in
          ret true
        else ret false
    end.

(** ** Running a coroutine

    The world outside answers the calls ([respond]); while the task is
    suspended at an [await], other code of the event loop may change the
    controller's attributes ([interfere]).  A run gives the final world
    and attributes, the result, and the calls made, each with the
    attributes as they were when it was made. *)

Record outcome (W A : Type) : Type := mkOutcome {
  world_of : W;
  self_of : RpcDevice;
  result_of : A;
  trace_of : list (call * RpcDevice)
}.

Arguments mkOutcome {W A} _ _ _ _.
Arguments world_of {W A} _.
Arguments self_of {W A} _.
Arguments result_of {W A} _.
Arguments trace_of {W A} _.

Definition logged {W A : Type} (c : call) (d : RpcDevice) (o : outcome W A)
  : outcome W A :=
  mkOutcome (world_of o) (self_of o) (result_of o) ((c, d) :: trace_of o).

Section Run.
Context {W : Type}.
Variable respond : forall c : call, W -> W * ans c.
Variable interfere : W -> RpcDevice -> RpcDevice.

Fixpoint run {A : Type} (t : co A) (w : W) (d : RpcDevice) : outcome W A :=
  match t with
  | Ret a => mkOutcome w d a []
  | Get k => run (k d) w d
  | Put d' k => run k w d'
  | Vis c k =>
      let wx := respond c w in
      logged c d
        (run (k (snd wx)) (fst wx)
             (if suspends c then interfere (fst wx) d else d))
  end.
End Run.

(** No other code runs while the task is suspended. *)
Definition quiet {W : Type} : W -> RpcDevice -> RpcDevice := fun _ d => d.

Definition calls_of {W A : Type} (o : outcome W A) : list call :=
  map fst (trace_of o).

(** ** [mergedicts] on the object store

    Python dictionaries are objects: [dict1], [dict2] and every nested
    dictionary are references into a store, and [result[key] = ...] is a
    write to the object [result].  This second model of [mergedicts]
    follows the source statement by statement on such a store, so that
    what the function writes, and where, can be stated. *)

Definition loc : Type := nat.

(** What a dictionary slot holds: a reference to a dictionary, or a
    value that is not a dictionary. *)
Inductive hval : Type :=
| HAtom (v : value)
| HRef (l : loc).

Abbreviation obj := (gmap string hval).
Abbreviation heap := (gmap loc obj).

(** One round of the [for] loop, for the key [key] of [result]:
    [value] is read from [result], [dict1.get(key)] from [dict1], both
    in the store as it is at that time. *)
Definition loop_round (rec : heap -> loc -> loc -> option (heap * loc))
  (dict1 result : loc) (h : heap) (key : string) : option heap :=
  o1 ← h !! dict1;
  res ← h !! result;
  match res !! key, o1 !! key with
  | Some (HRef lv), Some (HRef sub1) =>
      '(h', merged) ← rec h sub1 lv;
      res' ← h' !! result;
      Some (<[result := <[key := HRef merged]> res']> h')
  | _, _ => Some h
  end.

Fixpoint loop_rounds (rec : heap -> loc -> loc -> option (heap * loc))
  (dict1 result : loc) (keys : list string) (h : heap) : option heap :=
  match keys with
  | [] => Some h
  | key :: keys' =>
      h' ← loop_round rec dict1 result h key;
      loop_rounds rec dict1 result keys' h'
  end.

(** [fuel] bounds the depth of the recursion; [None] is a missing object
    or a recursion deeper than [fuel]. *)
Fixpoint mergedicts_store (fuel : nat) (h : heap) (dict1 dict2 : loc)
  : option (heap * loc) :=
  match fuel with
  | O => None
  | S fuel' =>
      o1 ← h !! dict1;
      o2 ← h !! dict2;
      let result := fresh (dom h) in
      let h1 := <[result := o2 ∪ o1]> h in
      h2 ← loop_rounds (mergedicts_store fuel') dict1 result
                       (map_to_list (o2 ∪ o1)).*1 h1;
      Some (h2, result)
  end.

(** The dictionary that a reference stands for. *)
Inductive denotes (h : heap) : loc -> dict -> Prop :=
| denotes_obj (l : loc) (o : obj) (d : dict) :
    h !! l = Some o ->
    (forall k, o !! k = None -> d !! k = None) ->
    (forall k v, o !! k = Some (HAtom v) ->
                 d !! k = Some v /\ is_dict v = false) ->
    (forall k l', o !! k = Some (HRef l') ->
                  exists d', d !! k = Some (VDict d') /\ denotes h l' d') ->
    denotes h l d.

(** ** Updates that keep the shape of the status

    [shape_stable (VDict s) u1 u2] fails when, at some key path along
    which [s], [u1] and [u2] all hold dictionaries, [s] holds a
    dictionary, [u1] a value that is not one, and [u2] a dictionary
    again. *)
Fixpoint shape_stable (s : value) (u1 u2 : dict) : bool :=
  match s with
  | VDict ds =>
      map_fold
        (fun k vs acc =>
           acc &&
           match vs, u1 !! k, u2 !! k with
           | VDict _, Some (VDict d1), Some (VDict d2) => shape_stable vs d1 d2
           | VDict _, Some (VDict _), _ => true
           | VDict _, Some _, Some (VDict _) => false
           | _, _, _ => true
           end)
        true ds
  | _ => true
  end.


(** ** Vocabulary of the statements *)

(** What a slot of a stored dictionary stands for. *)
Definition slot_denotes (h : heap) (ov : option hval) (dv : option value)
  : Prop :=
  match ov with
  | None => dv = None
  | Some (HAtom v) => dv = Some v /\ is_dict v = false
  | Some (HRef l) => exists d', dv = Some (VDict d') /\ denotes h l d'
  end.

(** The objects created since the store was [h], the object [r] apart,
    next to the part [h0] of [h]. *)
Definition grown (h0 h : heap) (r : loc) (hc : heap) : heap :=
  h0 ∪ delete r (hc ∖ h).

(** The invariant of the [for] loop of [mergedicts_store]: the keys in
    [done] have been visited, [hc] is the store and [r] the result. *)
Definition loop_inv (h0 h : heap) (r : loc) (o1 o2 : obj) (d1 d2 : dict)
  (done : list string) (hc : heap) : Prop :=
  exists oc,
    h ⊆ hc /\ hc !! r = Some oc /\
    (forall k, k ∈ done ->
               slot_denotes (grown h0 h r hc) (oc !! k)
                            (mergedicts d1 d2 !! k)) /\
    (forall k, k ∉ done -> oc !! k = (o2 ∪ o1) !! k).

(** The outcome of running [o'] after [o]. *)
Definition after {W A B : Type} (o : outcome W A) (o' : outcome W B)
  : outcome W B :=
  mkOutcome (world_of o') (self_of o') (result_of o')
            (trace_of o ++ trace_of o').

(** Every call that the coroutine can make satisfies [P]. *)
Fixpoint only {A : Type} (P : call -> Prop) (t : co A) : Prop :=
  match t with
  | Ret _ => True
  | Get k => forall d, only P (k d)
  | Put _ k => only P k
  | Vis c k => P c /\ forall x, only P (k x)
  end.

Definition is_listener (c : call) : bool :=
  match c with Listener _ _ => true | _ => false end.

Definition is_get_status (c : call) : bool :=
  match c with
  | WsCall method _ => String.eqb method "Shelly.GetStatus"
  | _ => false
  end.

(** [steady t d]: run from the attributes [d], the coroutine never
    writes [_initializing], and finds it set at every [await], as long as
    the code that runs meanwhile leaves it alone. *)
Fixpoint steady {A : Type} (t : co A) (d : RpcDevice) : Prop :=
  match t with
  | Ret _ => True
  | Get k => steady (k d) d
  | Put d' k => _initializing d' = _initializing d /\ steady k d'
  | Vis c k =>
      (suspends c = true -> _initializing d = true) /\
      forall x d', _initializing d' = _initializing d -> steady (k x) d'
  end.

(** An entry of a trace: if the call is an [await], the attributes it
    was made with have [_initializing] set. *)
Definition awaits_flagged (e : call * RpcDevice) : Prop :=
  suspends (fst e) = true -> _initializing (snd e) = true.

(** An entry of a trace: if the call is to the subscriber, the
    attributes it was made with have [initialized] set and hold that
    subscriber. *)
Definition listener_ready (e : call * RpcDevice) : Prop :=
  forall l u, fst e = Listener l u ->
              initialized (snd e) = true /\ _update_listener (snd e) = Some l.

(** An entry of the trace of an [initialize] call with the outcome [o]:
    a call to the subscriber announces [INITIALIZED], with [initialized]
    set then and at the end of the call, which returns normally. *)
Definition announces_initialized {W : Type} (o : outcome W (exn + unit))
  (e : call * RpcDevice) : Prop :=
  forall l u, fst e = Listener l u ->
              u = INITIALIZED /\ initialized (self_of o) = true /\
              result_of o = inr tt.

(** The attributes with which the [try] block of [initialize] starts. *)
Definition entered (d : RpcDevice) : RpcDevice :=
  set_initialized false (set_initializing true d).

(** The [try] block of [initialize] with its [except] clauses. *)
Definition guarded (async_init : bool) : co (exn + unit) :=
  try_except (initialize_try async_init) (initialize_except async_init).

(** The cache after [_on_notification], and the update kind. *)
Definition notified (method : string) (params : option dict) (d : RpcDevice)
  : RpcDevice * RpcUpdateType :=
  match params with
  | Some p =>
      if String.eqb method "NotifyFullStatus" then
        (set_status (Some p) d, STATUS)
      else
        match (if String.eqb method "NotifyStatus" then _status d
               else None) with
        | Some old => (set_status (Some (mergedicts old p)) d, STATUS)
        | None =>
            if String.eqb method "NotifyEvent"
            then (set_event (Some p) d, EVENT)
            else (d, UNKNOWN)
        end
  | None =>
      (d, if String.eqb method NOTIFY_WS_CLOSED then DISCONNECTED
          else UNKNOWN)
  end.

(** [holds P t d]: run from attributes [d] that satisfy [P], the
    coroutine writes only attributes that satisfy [P], as long as the
    code that runs while it is suspended keeps [P]. *)
Fixpoint holds {A : Type} (P : RpcDevice -> Prop) (t : co A) (d : RpcDevice)
  : Prop :=
  match t with
  | Ret _ => True
  | Get k => holds P (k d) d
  | Put d' k => P d' /\ holds P k d'
  | Vis c k => forall x d', P d' -> holds P (k x) d'
  end.

(** [wp R t Q d]: every run of [t] from the attributes [d] ends with a
    result and attributes that satisfy [Q], when the code that runs
    while the task is suspended changes the attributes within [R]. *)
Fixpoint wp {A : Type} (R : RpcDevice -> RpcDevice -> Prop) (t : co A)
  (Q : A -> RpcDevice -> Prop) (d : RpcDevice) : Prop :=
  match t with
  | Ret a => Q a d
  | Get k => wp R (k d) Q d
  | Put d' k => wp R k Q d'
  | Vis c k =>
      forall x d', (if suspends c then R d d' else d' = d) -> wp R (k x) Q d'
  end.

Definition uninitialized (d : RpcDevice) : Prop := initialized d = false.

Definition unsubscribed (d : RpcDevice) : Prop := _update_listener d = None.

Definition has_config (d : RpcDevice) : Prop := _config d <> None.

Definition same_last_error (d d' : RpcDevice) : Prop :=
  _last_error d' = _last_error d.

Definition is_unsub (c : call) : bool :=
  match c with UnsubWs => true | _ => false end.

Definition is_reboot (c : call) : bool :=
  match c with
  | WsCall method _ => String.eqb method "Shelly.Reboot"
  | _ => false
  end.

(** The calls that set up or use the connection to the device. *)
Definition opens_transport (c : call) : bool :=
  match c with
  | WsSetAuthData _ _ _ | WsConnect | WsCall _ _ => true
  | _ => false
  end.

(** The parameters that [update_outbound_websocket] passes to
    [Ws.SetConfig]. *)
Definition ws_config_params (server : string) : option dict :=
  Some {[ "config" :=
            VDict {[ "enable" := VBool true;
                     "server" := VStr server;
                     "ssl_ca" := VStr "*" ]} ]}.

(** The value found by following the keys of [path] through nested
    dictionaries. *)
Fixpoint at_path (path : list string) (v : value) : option value :=
  match path with
  | [] => Some v
  | key :: path' =>
      match v with
      | VDict d =>
          match d !! key with
          | Some v' => at_path path' v'
          | None => None
          end
      | _ => None
      end
  end.

(** ** Worlds and values for the examples *)

(** A world in which every call succeeds: the probe returns [info], the
    transport returns empty dictionaries and reports a live connection. *)
Definition respond_ok (info : dict) (c : call) (w : unit) : unit * ans c :=
  match c return unit * ans c with
  | GetInfo _ _ => (w, inr info)
  | WsSetAuthData _ _ _ => (w, tt)
  | WsConnect => (w, inr tt)
  | WsDisconnect => (w, inr tt)
  | WsCall _ _ => (w, inr ∅)
  | WsConnected => (w, true)
  | UnsubWs => (w, tt)
  | Sleep _ => (w, tt)
  | CreateTask_async_init => (w, tt)
  | Listener _ _ => (w, tt)
  end.

(** The same world, but the transport rejects the credentials. *)
Definition respond_auth_rejected (info : dict) (c : call) (w : unit)
  : unit * ans c :=
  match c return unit * ans c with
  | WsConnect => (w, inl InvalidAuthError)
  | c' => respond_ok info c' w
  end.

(** The same world, but the timeout block of [initialize] expires while
    the status is fetched. *)
Definition respond_status_expired (info : dict) (c : call) (w : unit)
  : unit * ans c :=
  match c return unit * ans c with
  | WsCall "Shelly.GetStatus" _ => (w, inl CancelledByTimeout)
  | c' => respond_ok info c' w
  end.

Definition some_options : ConnectionOptions :=
  mkOptions "192.168.1.2" None None None.

(** A device that answers the probe without asking for credentials. *)
Definition open_info : dict := {[ "auth_en" := VBool false ]}.

(** A store with [{a: {x: 1}}] at 0 and [{a: {x: 2}}] at 1. *)
Definition small_store : heap :=
  {[ 0 := {[ "a" := HRef 2 ]};
     1 := {[ "a" := HRef 3 ]};
     2 := {[ "x" := HAtom (VInt 1) ]};
     3 := {[ "x" := HAtom (VInt 2) ]} ]}.

(** The same world as [respond_ok], but the device cannot be reached. *)
Definition respond_unreachable (info : dict) (c : call) (w : unit)
  : unit * ans c :=
  match c return unit * ans c with
  | WsConnect => (w, inl OSError)
  | c' => respond_ok info c' w
  end.

(** The same world, but the device refuses every RPC. *)
Definition respond_rpc_refused (info : dict) (c : call) (w : unit)
  : unit * ans c :=
  match c return unit * ans c with
  | WsCall _ _ => (w, inl RpcCallError)
  | c' => respond_ok info c' w
  end.

(** The same world, with the outbound websocket of the device enabled
    for [server]. *)
Definition respond_ws_enabled (server : string) (c : call) (w : unit)
  : unit * ans c :=
  match c return unit * ans c with
  | WsCall "Ws.GetConfig" _ =>
      (w, inr {[ "enable" := VBool true; "server" := VStr server ]})
  | c' => respond_ok ∅ c' w
  end.

(** A device that asks for credentials. *)
Definition locked_info : dict := {[ "auth_en" := VBool true ]}.

(** A controller that is initialized, with a subscriber and a status. *)
Definition running_device : RpcDevice :=
  set_status (Some {[ "sys" := VDict {[ "uptime" := VInt 7 ]} ]})
    (set_initialized true
       (set_update_listener (Some 7) (init_device some_options))).

(** * Properties *)

(** ** The status merge *)

Lemma vsize_lookup (d : dict) (k : string) (v : value) :
  d !! k = Some v -> vsize v < vsize (VDict d).
Proof.
  intros H. simpl.
  rewrite <- (insert_delete_id d k v H).
  rewrite map_fold_insert_L.
  - lia.
  - intros. lia.
  - apply lookup_delete_eq.
Qed.

(** Induction on dictionaries with the hypothesis for every
    sub-dictionary stored under a key. *)
Lemma dict_nested_ind (P : dict -> Prop) :
  (forall d : dict,
      (forall k sub, d !! k = Some (VDict sub) -> P sub) -> P d) ->
  forall d, P d.
Proof.
  intros step d.
  remember (vsize (VDict d)) as n eqn:Hn.
  revert d Hn.
  induction n as [n IH] using lt_wf_ind.
  intros d ->. apply step. intros k sub Hk.
  apply (IH (vsize (VDict sub))); [|reflexivity].
  exact (vsize_lookup d k (VDict sub) Hk).
Qed.

(** Equations of [mergedicts]. *)

Lemma mergedicts_lookup (dict1 dict2 : dict) (key : string) :
  mergedicts dict1 dict2 !! key =
    match dict2 !! key with
    | Some val => Some (merged_value dict1 key val)
    | None =>
        match dict1 !! key with
        | Some val => Some (merged_value dict1 key val)
        | None => None
        end
    end.
Proof.
  unfold mergedicts at 1, merged_value. simpl. rewrite lookup_merge.
  destruct (dict1 !! key) as [[]|], (dict2 !! key) as [[]|]; reflexivity.
Qed.

(** The function as the source writes it: copy [dict1], [update] with
    [dict2] (a union in which [dict2] wins), then rewrite every entry of
    the result. *)
Lemma mergedicts_unfold (dict1 dict2 : dict) :
  mergedicts dict1 dict2 =
    map_imap (fun key val => Some (merged_value dict1 key val))
             (dict2 ∪ dict1).
Proof.
  apply map_eq. intros key.
  rewrite mergedicts_lookup, map_lookup_imap, lookup_union.
  destruct (dict2 !! key), (dict1 !! key); reflexivity.
Qed.

(** Merging a dictionary with itself rebuilds an equal dictionary: this
    is what happens to the sub-dictionaries of [dict1] that [dict2] does
    not mention. *)
Lemma mergedicts_diag (d : dict) : mergedicts d d = d.
Proof.
  induction d as [d IH] using dict_nested_ind.
  apply map_eq. intros key. rewrite mergedicts_lookup.
  unfold merged_value.
  destruct (d !! key) as [v|] eqn:Hk; [|reflexivity].
  destruct v; try reflexivity.
  rewrite (IH key _ Hk). reflexivity.
Qed.

Lemma merged_value_own (dict1 : dict) (key : string) (v : value) :
  dict1 !! key = Some v -> merged_value dict1 key v = v.
Proof.
  intros H. unfold merged_value. rewrite H.
  destruct v; try reflexivity. rewrite mergedicts_diag. reflexivity.
Qed.

Lemma shape_stable_lookup (ds u1 u2 : dict) (k : string) (vs : value) :
  shape_stable (VDict ds) u1 u2 = true ->
  ds !! k = Some vs ->
  match vs, u1 !! k, u2 !! k with
  | VDict _, Some (VDict d1), Some (VDict d2) => shape_stable vs d1 d2
  | VDict _, Some (VDict _), _ => true
  | VDict _, Some _, Some (VDict _) => false
  | _, _, _ => true
  end = true.
Proof.
  intros Hst Hk. simpl in Hst.
  rewrite <- (insert_delete_id ds k vs Hk) in Hst.
  rewrite map_fold_insert_L in Hst.
  - apply andb_true_iff in Hst. apply Hst.
  - intros. rewrite <- !andb_assoc. f_equal. apply andb_comm.
  - apply lookup_delete_eq.
Qed.

Example merge_nested_overwrite :
  mergedicts {[ "a" := VDict {[ "x" := VInt 1; "y" := VInt 2 ]} ]}
             {[ "a" := VDict {[ "y" := VInt 3 ]} ]}
  = {[ "a" := VDict {[ "x" := VInt 1; "y" := VInt 3 ]} ]}.
Proof. vm_compute. reflexivity. Qed.

Example merge_nested_new_keys :
  mergedicts {[ "a" := VDict {[ "x" := VInt 1; "y" := VInt 2 ]} ]}
             {[ "a" := VDict {[ "z" := VInt 4 ]}; "b" := VInt 5 ]}
  = {[ "a" := VDict {[ "x" := VInt 1; "y" := VInt 2; "z" := VInt 4 ]};
       "b" := VInt 5 ]}.
Proof. vm_compute. reflexivity. Qed.

Lemma mergedicts_assoc_stable (s : dict) :
  forall u1 u2 : dict,
    shape_stable (VDict s) u1 u2 = true ->
    mergedicts (mergedicts s u1) u2 = mergedicts s (mergedicts u1 u2).
Proof.
  induction s as [s IH] using dict_nested_ind.
  intros u1 u2 Hst. apply map_eq. intros k.
  rewrite !mergedicts_lookup. unfold merged_value.
  rewrite !mergedicts_lookup. unfold merged_value.
  pose proof (shape_stable_lookup s u1 u2 k) as Hk.
  pose proof (IH k) as IHk.
  destruct (s !! k) as [vs|]; [specialize (Hk vs Hst eq_refl)|clear Hk];
    destruct (u1 !! k) as [v1|]; destruct (u2 !! k) as [v2|];
    try destruct vs; try destruct v1; try destruct v2;
    simpl in *; try reflexivity; try discriminate;
    rewrite ?mergedicts_diag; try reflexivity.
  all: rewrite (IHk _ eq_refl _ _ Hk); reflexivity.
Qed.

Example shape_stable_accepts :
  shape_stable (VDict {[ "a" := VDict {[ "x" := VInt 1 ]} ]})
               {[ "a" := VDict {[ "x" := VInt 5 ]} ]}
               {[ "a" := VDict {[ "y" := VInt 6 ]} ]} = true.
Proof. vm_compute. reflexivity. Qed.

Example shape_stable_rejects :
  shape_stable (VDict {[ "k" := VDict {[ "x" := VInt 1 ]} ]})
               {[ "k" := VInt 5 ]}
               {[ "k" := VDict {[ "y" := VInt 2 ]} ]} = false.
Proof. vm_compute. reflexivity. Qed.

(** C3, as amended.  Merging [s] with [u1] and then with [u2] is one
    merge of [s] with [mergedicts u1 u2], the combination of the two
    updates in which [u2] wins, provided that no key path holds a
    dictionary in [s], a value that is not a dictionary in [u1] and a
    dictionary again in [u2]. *)
Theorem sequential_merge_is_single_merge (s u1 u2 : dict) :
  shape_stable (VDict s) u1 u2 = true ->
  mergedicts (mergedicts s u1) u2 = mergedicts s (mergedicts u1 u2).
Proof. apply mergedicts_assoc_stable. Qed.

Lemma sequential_merge_is_single_merge_witness :
  mergedicts (mergedicts {[ "a" := VDict {[ "x" := VInt 1 ]} ]}
                         {[ "a" := VDict {[ "x" := VInt 5 ]} ]})
             {[ "a" := VDict {[ "y" := VInt 6 ]} ]}
  = mergedicts {[ "a" := VDict {[ "x" := VInt 1 ]} ]}
               (mergedicts {[ "a" := VDict {[ "x" := VInt 5 ]} ]}
                           {[ "a" := VDict {[ "y" := VInt 6 ]} ]}).
Proof.
  apply (sequential_merge_is_single_merge
           {[ "a" := VDict {[ "x" := VInt 1 ]} ]}
           {[ "a" := VDict {[ "x" := VInt 5 ]} ]}
           {[ "a" := VDict {[ "y" := VInt 6 ]} ]}).
  vm_compute. reflexivity.
Defined.

(** C3, as stated, fails: with the status [{k: {x: 1}}], the update
    [{k: 5}] and then [{k: {y: 2}}], the two merges in sequence give
    [{k: {y: 2}}], the merge with the combined update gives
    [{k: {x: 1, y: 2}}], and no single update at all gives what the
    sequence gives. *)
Lemma sequential_merge_not_single_merge :
  mergedicts (mergedicts {[ "k" := VDict {[ "x" := VInt 1 ]} ]}
                         {[ "k" := VInt 5 ]})
             {[ "k" := VDict {[ "y" := VInt 2 ]} ]}
  = {[ "k" := VDict {[ "y" := VInt 2 ]} ]} /\
  mergedicts {[ "k" := VDict {[ "x" := VInt 1 ]} ]}
             (mergedicts {[ "k" := VInt 5 ]}
                         {[ "k" := VDict {[ "y" := VInt 2 ]} ]})
  = {[ "k" := VDict {[ "x" := VInt 1; "y" := VInt 2 ]} ]} /\
  forall u : dict,
    mergedicts {[ "k" := VDict {[ "x" := VInt 1 ]} ]} u
    <> {[ "k" := VDict {[ "y" := VInt 2 ]} ]}.
Proof.
  split; [vm_compute; reflexivity|]. split; [vm_compute; reflexivity|].
  intros u H.
  apply (f_equal (fun m : dict => m !! "k")) in H.
  rewrite mergedicts_lookup, !lookup_singleton_eq in H.
  assert (forall v : value,
             merged_value {[ "k" := VDict {[ "x" := VInt 1 ]} ]} "k" v
             <> VDict {[ "y" := VInt 2 ]}) as Hne.
  { intros v Hv. unfold merged_value in Hv.
    rewrite lookup_singleton_eq in Hv.
    destruct v as [| | | | |dv]; try discriminate.
    apply (f_equal (fun v => match v with VDict m => m | _ => ∅ end)) in Hv.
    apply (f_equal (fun m : dict => m !! "x")) in Hv.
    rewrite mergedicts_lookup, lookup_singleton_eq in Hv.
    rewrite lookup_singleton_ne in Hv by discriminate.
    destruct (dv !! "x"); discriminate. }
  destruct (u !! "k") as [v|]; apply (inj Some) in H; exact (Hne _ H).
Qed.

(** ** [mergedicts] on the object store *)

Lemma denotes_mono (d : dict) :
  forall (h h' : heap) (l : loc), h ⊆ h' -> denotes h l d -> denotes h' l d.
Proof.
  induction d as [d IH] using dict_nested_ind.
  intros h h' l Hsub Hd. inversion Hd as [l0 o d0 Hl Hnone Hatom Href]; subst.
  apply (denotes_obj h' l o d); auto.
  - eapply lookup_weaken; eauto.
  - intros k l' Hk. destruct (Href k l' Hk) as (d' & Hdk & Hden).
    exists d'. split; [assumption|]. eapply IH; eauto.
Qed.

Lemma slot_denotes_mono h h' ov dv :
  h ⊆ h' -> slot_denotes h ov dv -> slot_denotes h' ov dv.
Proof.
  intros Hsub. destruct ov as [[v|l]|]; simpl; auto.
  intros (d' & ? & ?). exists d'. split; auto. eapply denotes_mono; eauto.
Qed.

Lemma denotes_slots h l d :
  denotes h l d <-> exists o, h !! l = Some o /\ forall k, slot_denotes h (o !! k) (d !! k).
Proof.
  split.
  - intros Hd. inversion Hd as [l0 o d0 Hl Hnone Hatom Href]; subst.
    exists o. split; [assumption|]. intros k. unfold slot_denotes.
    destruct (o !! k) as [[v|l']|] eqn:Hk; auto.
  - intros (o & Hl & Hs). apply (denotes_obj h l o d); auto.
    + intros k Hk. specialize (Hs k). rewrite Hk in Hs. exact Hs.
    + intros k v Hk. specialize (Hs k). rewrite Hk in Hs. exact Hs.
    + intros k l' Hk. specialize (Hs k). rewrite Hk in Hs. exact Hs.
Qed.

Lemma slot_unmerged (h0 : heap) (o1 o2 : obj) (d1 d2 : dict) (k : string) :
  (forall k, slot_denotes h0 (o1 !! k) (d1 !! k)) ->
  (forall k, slot_denotes h0 (o2 !! k) (d2 !! k)) ->
  (forall lv sub1, (o2 ∪ o1) !! k = Some (HRef lv) ->
                   o1 !! k = Some (HRef sub1) -> False) ->
  slot_denotes h0 ((o2 ∪ o1) !! k) (mergedicts d1 d2 !! k).
Proof.
  intros S1 S2 Hno. specialize (S1 k). specialize (S2 k).
  rewrite lookup_union in *. rewrite mergedicts_lookup.
  unfold slot_denotes in *.
  destruct (o2 !! k) as [[v2|lv]|] eqn:E2; simpl in *.
  - destruct S2 as [-> Hnd]. rewrite union_Some_l. split; [|assumption].
    unfold merged_value. destruct v2; try reflexivity. discriminate.
  - destruct S2 as (dv & -> & Hden). rewrite union_Some_l.
    exists dv. split; [|assumption]. unfold merged_value.
    destruct (o1 !! k) as [[v1|sub1]|] eqn:E1.
    + destruct S1 as [-> Hnd]. destruct v1; try reflexivity. discriminate.
    + exfalso. eapply Hno; eauto.
    + rewrite S1. reflexivity.
  - rewrite S2. rewrite (left_id_L None union).
    destruct (o1 !! k) as [[v1|sub1]|] eqn:E1.
    + destruct S1 as [-> Hnd]. split; [|assumption].
      unfold merged_value. destruct v1; try reflexivity. discriminate.
    + exfalso. eapply Hno; eauto. 
    + rewrite S1. reflexivity.
Qed.

Lemma slot_merge_inputs (h0 : heap) (o1 o2 : obj) (d1 d2 : dict) (k : string)
  (lv sub1 : loc) :
  (forall k, slot_denotes h0 (o1 !! k) (d1 !! k)) ->
  (forall k, slot_denotes h0 (o2 !! k) (d2 !! k)) ->
  (o2 ∪ o1) !! k = Some (HRef lv) ->
  o1 !! k = Some (HRef sub1) ->
  exists dsub dv,
    d1 !! k = Some (VDict dsub) /\ denotes h0 sub1 dsub /\ denotes h0 lv dv /\
    mergedicts d1 d2 !! k = Some (VDict (mergedicts dsub dv)).
Proof.
  intros S1 S2 Hu H1. specialize (S1 k). specialize (S2 k).
  rewrite lookup_union in Hu. rewrite mergedicts_lookup.
  rewrite H1 in S1. simpl in S1. destruct S1 as (dsub & Hd1 & Hden1).
  destruct (o2 !! k) as [x|] eqn:E2.
  - rewrite H1 in Hu. rewrite union_Some_l in Hu. injection Hu as ->.
    simpl in S2. destruct S2 as (dv & Hd2 & Hden2).
    exists dsub, dv. rewrite Hd2. unfold merged_value. rewrite Hd1. auto.
  - rewrite (left_id_L None union) in Hu. rewrite H1 in Hu. injection Hu as <-.
    simpl in S2. rewrite S2. exists dsub, dsub. rewrite Hd1.
    unfold merged_value. rewrite Hd1. auto.
Qed.

Lemma grown_base h0 h r hc : h0 ⊆ grown h0 h r hc.
Proof. apply map_union_subseteq_l. Qed.

Lemma grown_mono h0 h r hc hc' :
  hc ⊆ hc' -> grown h0 h r hc ⊆ grown h0 h r hc'.
Proof.
  intros Hsub. apply map_union_mono_l. apply map_subseteq_spec.
  intros q x Hq.
  apply lookup_delete_Some in Hq as [Hne Hq].
  apply lookup_difference_Some in Hq as [Hq Hn].
  apply lookup_delete_Some. split; [assumption|].
  apply lookup_difference_Some. split; [|assumption].
  eapply lookup_weaken; eauto.
Qed.

Lemma grown_insert h0 h r hc x : grown h0 h r (<[r:=x]> hc) = grown h0 h r hc.
Proof.
  unfold grown. f_equal. apply map_eq. intros q.
  destruct (decide (q = r)) as [->|Hne].
  - rewrite !lookup_delete_eq. reflexivity.
  - rewrite !lookup_delete_ne by auto. rewrite !lookup_difference.
    rewrite lookup_insert_ne by auto. reflexivity.
Qed.

Lemma fresh_part_grown h0 h r hc h' oc :
  h0 ⊆ h -> h ⊆ hc -> hc ⊆ h' -> hc !! r = Some oc ->
  h0 ∪ (h' ∖ hc) ⊆ grown h0 h r h'.
Proof.
  intros H0 Hh Hc Hr. apply map_union_mono_l. apply map_subseteq_spec.
  intros q x Hq. apply lookup_difference_Some in Hq as [Hq Hn].
  apply lookup_delete_Some. split.
  - intros ->. congruence.
  - apply lookup_difference_Some. split; [assumption|].
    destruct (h !! q) eqn:E; [|reflexivity].
    apply (lookup_weaken _ _ _ _ E) in Hh. congruence.
Qed.

Section Loop.
Variable rec : heap -> loc -> loc -> option (heap * loc).
Variables (h0 h : heap) (l1 r : loc) (o1 o2 : obj) (d1 d2 : dict).
Hypothesis Hh0 : h0 ⊆ h.
Hypothesis Hr : h !! r = None.
Hypothesis Hl1 : h0 !! l1 = Some o1.
Hypothesis S1 : forall k, slot_denotes h0 (o1 !! k) (d1 !! k).
Hypothesis S2 : forall k, slot_denotes h0 (o2 !! k) (d2 !! k).
Hypothesis Hrec :
  forall k dsub dv hc lsub lv,
    d1 !! k = Some (VDict dsub) -> h0 ⊆ hc ->
    denotes h0 lsub dsub -> denotes h0 lv dv ->
    exists h' m,
      rec hc lsub lv = Some (h', m) /\ hc ⊆ h' /\ hc !! m = None /\
      denotes (h0 ∪ (h' ∖ hc)) m (mergedicts dsub dv).

Lemma loop_round_spec (done : list string) (hc : heap) (key : string) :
  loop_inv h0 h r o1 o2 d1 d2 done hc -> key ∉ done ->
  exists hc', loop_round rec l1 r hc key = Some hc' /\
              loop_inv h0 h r o1 o2 d1 d2 (key :: done) hc'.
Proof.
  intros (oc & Hh & Hrc & Hdone & Htodo) Hkey.
  assert (hc !! l1 = Some o1) as Hc1.
  { eapply lookup_weaken; [|exact Hh]. eapply lookup_weaken; eauto. }
  unfold loop_round. rewrite Hc1, Hrc. simpl.
  rewrite (Htodo key Hkey).
  assert ((exists lv sub1, (o2 ∪ o1) !! key = Some (HRef lv) /\
                           o1 !! key = Some (HRef sub1)) \/
          (forall lv sub1, (o2 ∪ o1) !! key = Some (HRef lv) ->
                           o1 !! key = Some (HRef sub1) -> False))
    as [(lv & sub1 & Eu & E1)|Hno].
  { destruct ((o2 ∪ o1) !! key) as [[v|lv]|];
      [right; congruence| |right; congruence].
    destruct (o1 !! key) as [[v1|sub1]|];
      [right; congruence| |right; congruence].
    left. eauto. }
  - (* both are dictionaries: the recursive call *)
    rewrite Eu, E1.
    destruct (slot_merge_inputs h0 o1 o2 d1 d2 key lv sub1 S1 S2 Eu E1)
      as (dsub & dv & Hd1 & Hden1 & Hden2 & Hm).
    destruct (Hrec key dsub dv hc sub1 lv Hd1)
      as (h' & m & -> & Hsub & Hm0 & Hden); auto.
    { etrans; eauto. }
    simpl. rewrite (lookup_weaken _ _ _ _ Hrc Hsub). simpl.
    eexists. split; [reflexivity|].
    exists (<[key:=HRef m]> oc). split; [|split; [|split]].
    + apply insert_subseteq_r; [assumption|]. etrans; eauto.
    + apply lookup_insert_eq.
    + intros k Hk. rewrite grown_insert.
      destruct (decide (k = key)) as [->|Hne].
      * rewrite lookup_insert_eq. simpl. eexists. split; [exact Hm|].
        eapply denotes_mono; [|exact Hden].
        eapply fresh_part_grown; eauto.
      * rewrite lookup_insert_ne by auto.
        eapply slot_denotes_mono; [apply grown_mono; exact Hsub|].
        apply Hdone. apply elem_of_cons in Hk as [Hk|Hk]; [contradiction|].
        exact Hk.
    + intros k Hk. apply not_elem_of_cons in Hk as [Hne Hk].
      rewrite lookup_insert_ne by congruence. apply Htodo. exact Hk.
  - (* nothing to merge at this key *)
    exists hc. split.
    + destruct ((o2 ∪ o1) !! key) as [[v|lv]|] eqn:Eu; try reflexivity.
      destruct (o1 !! key) as [[v1|sub1]|] eqn:E1; try reflexivity.
      exfalso. eauto.
    + exists oc. split; [|split; [|split]]; auto.
      * intros k Hk. apply elem_of_cons in Hk as [->|Hk]; [|auto].
        rewrite (Htodo key Hkey).
        eapply slot_denotes_mono; [apply grown_base|].
        apply slot_unmerged; auto.
      * intros k Hk. apply not_elem_of_cons in Hk as [_ Hk].
        apply Htodo. exact Hk.
Qed.

Lemma loop_rounds_spec (keys : list string) :
  forall (done : list string) (hc : heap),
    NoDup keys -> (forall k, k ∈ keys -> k ∉ done) ->
    loop_inv h0 h r o1 o2 d1 d2 done hc ->
    exists hc', loop_rounds rec l1 r keys hc = Some hc' /\
                loop_inv h0 h r o1 o2 d1 d2 (reverse keys ++ done) hc'.
Proof.
  induction keys as [|key keys IH]; intros done hc Hnd Hfresh Hinv.
  - exists hc. split; [reflexivity|exact Hinv].
  - apply NoDup_cons in Hnd as [Hkey Hnd].
    destruct (loop_round_spec done hc key Hinv) as (hc1 & Hround & Hinv1).
    { apply Hfresh. left. }
    destruct (IH (key :: done) hc1 Hnd) as (hc' & Hloop & Hinv'); auto.
    { intros k Hk. apply not_elem_of_cons. split.
      - intros ->. contradiction.
      - apply Hfresh. right. exact Hk. }
    exists hc'. split.
    + simpl. rewrite Hround. simpl. exact Hloop.
    + rewrite reverse_cons, <- app_assoc. exact Hinv'.
Qed.
End Loop.

Lemma mergedicts_store_frame (fuel : nat) :
  forall (d1 d2 : dict) (h0 h : heap) (l1 l2 : loc),
    vsize (VDict d1) <= fuel ->
    h0 ⊆ h -> denotes h0 l1 d1 -> denotes h0 l2 d2 ->
    exists h' r,
      mergedicts_store fuel h l1 l2 = Some (h', r) /\ h ⊆ h' /\
      h !! r = None /\ denotes (h0 ∪ (h' ∖ h)) r (mergedicts d1 d2).
Proof.
  induction fuel as [|fuel IH]; intros d1 d2 h0 h l1 l2 Hfuel Hh0 Hd1 Hd2.
  { simpl in Hfuel. lia. }
  apply denotes_slots in Hd1 as (o1 & Hl1 & S1).
  apply denotes_slots in Hd2 as (o2 & Hl2 & S2).
  simpl.
  rewrite (lookup_weaken _ _ _ _ Hl1 Hh0), (lookup_weaken _ _ _ _ Hl2 Hh0).
  simpl.
  set (r := fresh (dom h)).
  assert (h !! r = None) as Hr.
  { apply not_elem_of_dom. apply is_fresh. }
  assert (forall k dsub dv hc lsub lv,
             d1 !! k = Some (VDict dsub) -> h0 ⊆ hc ->
             denotes h0 lsub dsub -> denotes h0 lv dv ->
             exists h' m,
               mergedicts_store fuel hc lsub lv = Some (h', m) /\ hc ⊆ h' /\
               hc !! m = None /\
               denotes (h0 ∪ (h' ∖ hc)) m (mergedicts dsub dv)) as Hrec.
  { intros k dsub dv hc lsub lv Hk Hsub Hs Hv.
    apply IH; auto.
    pose proof (vsize_lookup d1 k (VDict dsub) Hk). lia. }
  destruct (loop_rounds_spec (mergedicts_store fuel) h0 h l1 r o1 o2 d1 d2
              Hh0 Hr Hl1 S1 S2 Hrec (map_to_list (o2 ∪ o1)).*1 []
              (<[r := o2 ∪ o1]> h))
    as (h' & Hloop & oc & Hh & Hrc & Hdone & Htodo).
  - apply NoDup_fst_map_to_list.
  - intros k _. apply not_elem_of_nil.
  - exists (o2 ∪ o1). split; [|split; [|split]].
    + apply insert_subseteq. exact Hr.
    + apply lookup_insert_eq.
    + intros k Hk. apply not_elem_of_nil in Hk. contradiction.
    + reflexivity.
  - rewrite Hloop. simpl. exists h', r.
    split; [reflexivity|]. split; [assumption|]. split; [assumption|].
    apply denotes_slots. exists oc. split.
    + apply lookup_union_Some_raw. right. split.
      * destruct (h0 !! r) eqn:E; [|reflexivity].
        apply (lookup_weaken _ _ _ _ E) in Hh0. congruence.
      * apply lookup_difference_Some. auto.
    + intros k.
      assert (grown h0 h r h' ⊆ h0 ∪ h' ∖ h) as Hg.
      { apply map_union_mono_l. apply delete_subseteq. }
      destruct (decide (k ∈ (map_to_list (o2 ∪ o1)).*1)) as [Hin|Hout].
      * eapply slot_denotes_mono; [exact Hg|]. apply Hdone.
        rewrite app_nil_r. apply elem_of_reverse. exact Hin.
      * rewrite Htodo.
        2: { rewrite app_nil_r. rewrite elem_of_reverse. exact Hout. }
        eapply slot_denotes_mono; [apply map_union_subseteq_l|].
        apply slot_unmerged; auto.
        intros lv sub1 Hu _. apply Hout.
        apply list_elem_of_fmap. exists (k, HRef lv). split; [reflexivity|].
        apply elem_of_map_to_list. exact Hu.
Qed.

(** The statement on one store: the inputs and every other object that
    was there are as they were, the result is new and stands for the
    merge. *)
Lemma mergedicts_store_correct (fuel : nat) (h : heap) (l1 l2 : loc)
  (d1 d2 : dict) :
  denotes h l1 d1 -> denotes h l2 d2 -> vsize (VDict d1) <= fuel ->
  exists h' r,
    mergedicts_store fuel h l1 l2 = Some (h', r) /\ h ⊆ h' /\
    h !! r = None /\ denotes h' r (mergedicts d1 d2).
Proof.
  intros Hd1 Hd2 Hfuel.
  destruct (mergedicts_store_frame fuel d1 d2 h h l1 l2 Hfuel)
    as (h' & r & Hrun & Hsub & Hr & Hden); auto.
  exists h', r. repeat split; auto.
  eapply denotes_mono; [|exact Hden].
  apply map_union_least; [assumption|].
  apply map_subseteq_difference_l. reflexivity.
Qed.

Lemma denotes_singleton_atom (h : heap) (l : loc) (k : string) (v : value) :
  h !! l = Some {[ k := HAtom v ]} -> is_dict v = false ->
  denotes h l {[ k := v ]}.
Proof.
  intros Hl Hv. apply denotes_slots. eexists. split; [exact Hl|].
  intros k'. destruct (decide (k' = k)) as [->|Hne].
  - rewrite !lookup_singleton_eq. simpl. auto.
  - rewrite !lookup_singleton_ne by congruence. reflexivity.
Qed.

Lemma denotes_singleton_ref (h : heap) (l l' : loc) (k : string) (d' : dict) :
  h !! l = Some {[ k := HRef l' ]} -> denotes h l' d' ->
  denotes h l {[ k := VDict d' ]}.
Proof.
  intros Hl Hd. apply denotes_slots. eexists. split; [exact Hl|].
  intros k'. destruct (decide (k' = k)) as [->|Hne].
  - rewrite !lookup_singleton_eq. simpl. eauto.
  - rewrite !lookup_singleton_ne by congruence. reflexivity.
Qed.

Lemma small_store_left :
  denotes small_store 0 {[ "a" := VDict {[ "x" := VInt 1 ]} ]}.
Proof.
  apply (denotes_singleton_ref small_store 0 2); [reflexivity|].
  apply denotes_singleton_atom; reflexivity.
Qed.

Lemma small_store_right :
  denotes small_store 1 {[ "a" := VDict {[ "x" := VInt 2 ]} ]}.
Proof.
  apply (denotes_singleton_ref small_store 1 3); [reflexivity|].
  apply denotes_singleton_atom; reflexivity.
Qed.

(** The store after merging 0 with 1 in [small_store]: two new objects,
    the four old ones as they were. *)
Example mergedicts_store_small :
  mergedicts_store 2 small_store 0 1
  = Some (<[ 4 := {[ "a" := HRef 5 ]} ]>
            (<[ 5 := {[ "x" := HAtom (VInt 2) ]} ]> small_store), 4).
Proof. vm_compute. reflexivity. Qed.

(** C2.  Key by key, [mergedicts dict1 dict2] holds under a key of
    [dict2] the recursive merge when both values are dictionaries and
    the value of [dict2] otherwise, and under a key of [dict1] alone the
    value of [dict1]; the two merges of the specification give the
    results it names; and on the object store, where the source's
    [result[key] = ...] is a write, the call leaves every object that
    existed as it was (the inputs and their nested dictionaries among
    them) and returns a new object that stands for the merge. *)
Theorem mergedicts_deep_merge :
  (forall (dict1 dict2 : dict) (key : string),
      mergedicts dict1 dict2 !! key =
        match dict2 !! key with
        | Some incoming =>
            Some match incoming, dict1 !! key with
                 | VDict dv, Some (VDict sub1) => VDict (mergedicts sub1 dv)
                 | _, _ => incoming
                 end
        | None => dict1 !! key
        end) /\
  mergedicts {[ "a" := VDict {[ "x" := VInt 1; "y" := VInt 2 ]} ]}
             {[ "a" := VDict {[ "y" := VInt 3 ]} ]}
  = {[ "a" := VDict {[ "x" := VInt 1; "y" := VInt 3 ]} ]} /\
  mergedicts {[ "a" := VDict {[ "x" := VInt 1; "y" := VInt 2 ]} ]}
             {[ "a" := VDict {[ "z" := VInt 4 ]}; "b" := VInt 5 ]}
  = {[ "a" := VDict {[ "x" := VInt 1; "y" := VInt 2; "z" := VInt 4 ]};
       "b" := VInt 5 ]} /\
  (forall (fuel : nat) (h : heap) (l1 l2 : loc) (d1 d2 : dict),
      denotes h l1 d1 -> denotes h l2 d2 -> vsize (VDict d1) <= fuel ->
      exists h' r,
        mergedicts_store fuel h l1 l2 = Some (h', r) /\
        h ⊆ h' /\ h !! r = None /\ denotes h' r (mergedicts d1 d2)).
Proof.
  split; [|split; [|split]].
  - intros dict1 dict2 key. rewrite mergedicts_lookup.
    destruct (dict2 !! key) as [incoming|]; [reflexivity|].
    destruct (dict1 !! key) as [v|] eqn:Hk; [|reflexivity].
    rewrite (merged_value_own _ _ _ Hk). reflexivity.
  - exact merge_nested_overwrite.
  - exact merge_nested_new_keys.
  - intros fuel h l1 l2 d1 d2. apply mergedicts_store_correct.
Qed.

Lemma mergedicts_deep_merge_witness :
  exists h' r,
    mergedicts_store 3 small_store 0 1 = Some (h', r) /\
    small_store ⊆ h' /\ small_store !! r = None /\
    denotes h' r (mergedicts {[ "a" := VDict {[ "x" := VInt 1 ]} ]}
                             {[ "a" := VDict {[ "x" := VInt 2 ]} ]}).
Proof.
  apply (proj2 (proj2 (proj2 mergedicts_deep_merge))).
  - exact small_store_left.
  - exact small_store_right.
  - vm_compute. lia.
Defined.

(** ** Running coroutines *)

Section RunLaws.
Context {W : Type}.
Variable respond : forall c : call, W -> W * ans c.
Variable interfere : W -> RpcDevice -> RpcDevice.

#[local] Abbreviation run := (run respond interfere).

Lemma run_bind {A B : Type} (t : co A) (f : A -> co B) :
  forall w d,
    run (bind t f) w d =
      after (run t w d)
            (run (f (result_of (run t w d))) (world_of (run t w d))
                 (self_of (run t w d))).
Proof.
  induction t as [a|k IH|d' k IH|c k IH]; intros w d; simpl.
  - destruct (run (f a) w d). reflexivity.
  - apply IH.
  - apply IH.
  - rewrite IH. reflexivity.
Qed.

Lemma run_bindE {A B : Type} (m : co (exn + A)) (f : A -> co (exn + B)) w d :
  run (bindE m f) w d =
    match result_of (run m w d) with
    | inl e => mkOutcome (world_of (run m w d)) (self_of (run m w d)) (inl e)
                         (trace_of (run m w d))
    | inr a => after (run m w d)
                     (run (f a) (world_of (run m w d)) (self_of (run m w d)))
    end.
Proof.
  unfold bindE. rewrite run_bind.
  destruct (result_of (run m w d)); [|reflexivity].
  unfold after. simpl. rewrite app_nil_r. reflexivity.
Qed.

Lemma run_try_except {A : Type} (m : co (exn + A)) (h : exn -> co (exn + A)) w d :
  run (try_except m h) w d =
    match result_of (run m w d) with
    | inl e => after (run m w d)
                     (run (h e) (world_of (run m w d)) (self_of (run m w d)))
    | inr a => run m w d
    end.
Proof.
  unfold try_except. rewrite run_bind.
  destruct (run m w d) as [w' d' [e|a] tr]; simpl; [reflexivity|].
  unfold after. simpl. rewrite app_nil_r. reflexivity.
Qed.

Lemma run_try_finally {A : Type} (m : co (exn + A)) (fin : co unit) w d :
  run (try_finally m fin) w d =
    let o := run m w d in
    let o' := run fin (world_of o) (self_of o) in
    mkOutcome (world_of o') (self_of o') (result_of o)
              (trace_of o ++ trace_of o').
Proof.
  unfold try_finally. rewrite run_bind, run_bind. unfold after. simpl.
  rewrite app_nil_r. reflexivity.
Qed.

Lemma run_get_self_bind {B : Type} (f : RpcDevice -> co (exn + B)) w d :
  run (bindE get_self f) w d = run (f d) w d.
Proof. reflexivity. Qed.

Lemma run_modify_bind {B : Type} (g : RpcDevice -> RpcDevice)
  (f : unit -> co (exn + B)) w d :
  run (bindE (modify g) f) w d = run (f tt) w (g d).
Proof. reflexivity. Qed.

End RunLaws.

(** ** The calls a coroutine can make *)

Lemma only_bind {A B : Type} (P : call -> Prop) (t : co A) (f : A -> co B) :
  only P t -> (forall a, only P (f a)) -> only P (bind t f).
Proof.
  induction t as [a|k IH|d' k IH|c k IH]; simpl; intros Ht Hf; auto.
  destruct Ht as [Hc Hk]. split; auto.
Qed.

Lemma only_bindE {A B : Type} (P : call -> Prop) (m : co (exn + A))
  (f : A -> co (exn + B)) :
  only P m -> (forall a, only P (f a)) -> only P (bindE m f).
Proof.
  intros Hm Hf. apply only_bind; [assumption|].
  intros [e|a]; simpl; auto.
Qed.

Lemma only_try_except {A : Type} (P : call -> Prop) (m : co (exn + A))
  (h : exn -> co (exn + A)) :
  only P m -> (forall e, only P (h e)) -> only P (try_except m h).
Proof.
  intros Hm Hh. apply only_bind; [assumption|].
  intros [e|a]; simpl; auto.
Qed.

Lemma only_run {W A : Type} (respond : forall c : call, W -> W * ans c)
  (interfere : W -> RpcDevice -> RpcDevice) (P : call -> Prop) (t : co A) :
  only P t ->
  forall w d, Forall (fun e => P (fst e)) (trace_of (run respond interfere t w d)).
Proof.
  induction t as [a|k IH|d' k IH|c k IH]; simpl; intros Ht w d.
  - constructor.
  - apply IH, Ht.
  - apply IH, Ht.
  - destruct Ht as [Hc Hk]. constructor; [exact Hc|]. apply IH, Hk.
Qed.

(** Going through a coroutine to bound the calls it can make. *)
Ltac footprint :=
  repeat first
    [ progress (simpl; intros)
    | apply only_bindE
    | apply only_try_except
    | apply only_bind
    | split
    | match goal with
      | |- only _ (match ?x with _ => _ end) => destruct x
      | |- only _ (if ?x then _ else _) => destruct x
      end
    | exact I
    | reflexivity ].

Lemma call_rpc_only (P : call -> Prop) method params :
  P (WsCall method params) -> only P (call_rpc method params).
Proof. intros H. unfold call_rpc, await_call, modify, raise. footprint; auto. Qed.

Lemma disconnect_no_listener :
  only (fun c => is_listener c = false) _disconnect_websocket.
Proof.
  unfold _disconnect_websocket, get_self, perform, modify, await_disconnect, ret.
  footprint.
Qed.

Lemma initialize_try_no_listener async_init :
  only (fun c => is_listener c = false) (initialize_try async_init).
Proof.
  unfold initialize_try, probe_and_authenticate, connect_and_configure,
    fetch_status_step, update_status, update_config, update_profiles,
    get_self, await_get_info, await_connect, modify, prop, perform, ret, raise.
  footprint; try (apply call_rpc_only; reflexivity).
Qed.

Lemma initialize_except_no_listener async_init e :
  only (fun c => is_listener c = false) (initialize_except async_init e).
Proof.
  unfold initialize_except, modify, raise, ret.
  footprint; try apply disconnect_no_listener.
Qed.

(** ** [initialize] and [_on_notification] *)

Section Lifecycle.
Context {W : Type}.
Variable respond : forall c : call, W -> W * ans c.
Variable interfere : W -> RpcDevice -> RpcDevice.

#[local] Abbreviation run := (run respond interfere).

Lemma run_notify_listener (u : RpcUpdateType) w d :
  run (notify_listener u) w d =
    match _update_listener d with
    | Some l =>
        if initialized d
        then mkOutcome (fst (respond (Listener l u) w)) d (inr tt)
                       [(Listener l u, d)]
        else mkOutcome w d (inr tt) []
    | None => mkOutcome w d (inr tt) []
    end.
Proof.
  unfold notify_listener. simpl.
  destruct (_update_listener d) as [l|]; [|reflexivity].
  destruct (initialized d); reflexivity.
Qed.

Lemma run_initialize_rejected (async_init : bool) w d :
  _initializing d = true ->
  run (initialize async_init) w d = mkOutcome w d (inl RuntimeError) [].
Proof. intros H. unfold initialize. simpl. rewrite H. reflexivity. Qed.

Lemma run_initialize (async_init : bool) w d :
  _initializing d = false ->
  run (initialize async_init) w d =
    let om := run (guarded async_init) w (entered d) in
    let d' := set_initializing false (self_of om) in
    match result_of om with
    | inl e => mkOutcome (world_of om) d' (inl e) (trace_of om)
    | inr _ =>
        after om (run (notify_listener INITIALIZED) (world_of om) d')
    end.
Proof.
  intros H. unfold initialize.
  rewrite run_get_self_bind, H, !run_modify_bind.
  rewrite run_bindE, run_try_finally. fold (guarded async_init).
  fold (entered d). simpl.
  destruct (run (guarded async_init) w (entered d)) as [w' d' [e|[]] tr]; simpl.
  - rewrite !app_nil_r. reflexivity.
  - rewrite !app_nil_r. reflexivity.
Qed.

Lemma guarded_no_listener async_init :
  only (fun c => is_listener c = false) (guarded async_init).
Proof.
  apply only_try_except.
  - apply initialize_try_no_listener.
  - apply initialize_except_no_listener.
Qed.

Lemma initialize_flag_released (async_init : bool) w d :
  _initializing d = false ->
  _initializing (self_of (run (initialize async_init) w d)) = false.
Proof.
  intros H. rewrite run_initialize by exact H. cbv zeta.
  destruct (run (guarded async_init) w (entered d)) as [w' d' [e|[]] tr];
    [reflexivity|].
  cbn [after result_of world_of self_of trace_of].
  rewrite run_notify_listener.
  destruct (_update_listener _); [|reflexivity].
  destruct (initialized _); reflexivity.
Qed.

Lemma no_listener_ready (tr : list (call * RpcDevice)) :
  Forall (fun e => is_listener (fst e) = false) tr -> Forall listener_ready tr.
Proof.
  intros H. eapply Forall_impl; [exact H|].
  intros [c dc] Hc l u Heq. simpl in *. subst c. discriminate.
Qed.

Lemma notify_listener_ready u w d :
  Forall listener_ready (trace_of (run (notify_listener u) w d)).
Proof.
  rewrite run_notify_listener.
  destruct (_update_listener d) as [l|] eqn:El; [|constructor].
  destruct (initialized d) eqn:Ei; [|constructor].
  constructor; [|constructor].
  intros l' u' Heq. simpl in *. injection Heq as <- <-. auto.
Qed.

Lemma initialize_listener_ready (async_init : bool) w d :
  Forall listener_ready (trace_of (run (initialize async_init) w d)).
Proof.
  destruct (_initializing d) eqn:H.
  - rewrite run_initialize_rejected by exact H. constructor.
  - rewrite run_initialize by exact H. cbv zeta.
    pose proof (only_run respond interfere _ _ (guarded_no_listener async_init)
                  w (entered d)) as Hg.
    apply no_listener_ready in Hg.
    destruct (run (guarded async_init) w (entered d)) as [w' d' [e|[]] tr];
      [exact Hg|].
    cbn [after result_of world_of self_of trace_of]. apply Forall_app.
    split; [exact Hg|]. apply notify_listener_ready.
Qed.

Lemma run_classify_notification method params w d :
  run (classify_notification method params) w d =
    mkOutcome w (fst (notified method params d))
              (inr (snd (notified method params d))) [].
Proof.
  unfold classify_notification, notified.
  rewrite run_get_self_bind.
  destruct params as [p|].
  - destruct (String.eqb method "NotifyFullStatus"); [reflexivity|].
    destruct (if String.eqb method "NotifyStatus" then _status d else None);
      [reflexivity|].
    destruct (String.eqb method "NotifyEvent"); reflexivity.
  - destruct (String.eqb method NOTIFY_WS_CLOSED); reflexivity.
Qed.

Lemma run_on_notification method params w d :
  run (_on_notification method params) w d =
    let d' := fst (notified method params d) in
    if negb (_initializing d') && negb (initialized d') then
      mkOutcome (fst (respond CreateTask_async_init w)) d' (inr tt)
                [(CreateTask_async_init, d')]
    else run (notify_listener (snd (notified method params d))) w d'.
Proof.
  unfold _on_notification.
  rewrite run_bindE, run_classify_notification.
  cbn [after result_of world_of self_of trace_of app].
  rewrite run_get_self_bind. cbv zeta.
  destruct (negb (_initializing _) && negb (initialized _)); [reflexivity|].
  destruct (run (notify_listener _) w _); reflexivity.
Qed.

Lemma on_notification_cache method params w d :
  self_of (run (_on_notification method params) w d) =
    fst (notified method params d).
Proof.
  rewrite run_on_notification. cbv zeta.
  destruct (negb (_initializing _) && negb (initialized _)); [reflexivity|].
  rewrite run_notify_listener.
  destruct (_update_listener _); [|reflexivity].
  destruct (initialized _); reflexivity.
Qed.

Lemma on_notification_listener_ready method params w d :
  Forall listener_ready (trace_of (run (_on_notification method params) w d)).
Proof.
  rewrite run_on_notification. cbv zeta.
  destruct (negb (_initializing _) && negb (initialized _)).
  - constructor; [|constructor]. intros l u Heq. discriminate.
  - apply notify_listener_ready.
Qed.

Lemma initialize_except_lazy_auth :
  initialize_except true InvalidAuthError =
    (let* _ := modify (set_last_error (Some InvalidAuthError)) in
     modify (set_initialized true)).
Proof. reflexivity. Qed.

Lemma lazy_auth_failure_deferred w d :
  _initializing d = false ->
  result_of (run (initialize_try true) w (entered d)) = inl InvalidAuthError ->
  let o := run (initialize true) w d in
  result_of o = inr tt /\
  initialized (self_of o) = true /\
  _last_error (self_of o) = Some InvalidAuthError /\
  (_status (self_of o) = None -> status (self_of o) = inl InvalidAuthError) /\
  (_config (self_of o) = None -> config (self_of o) = inl InvalidAuthError).
Proof.
  intros Hflag Hauth. cbv zeta.
  rewrite run_initialize by exact Hflag. cbv zeta.
  unfold guarded. rewrite run_try_except.
  destruct (run (initialize_try true) w (entered d)) as [w' d' r tr].
  cbn [result_of] in Hauth. subst r.
  cbn [after result_of world_of self_of trace_of].
  rewrite initialize_except_lazy_auth, run_modify_bind.
  cbn [after result_of world_of self_of trace_of run modify ret].
  rewrite run_notify_listener.
  assert (forall x : RpcDevice,
             x = set_initializing false
                   (set_initialized true
                      (set_last_error (Some InvalidAuthError) d')) ->
             initialized x = true /\
             _last_error x = Some InvalidAuthError /\
             (_status x = None -> status x = inl InvalidAuthError) /\
             (_config x = None -> config x = inl InvalidAuthError)) as Hfinal.
  { intros x ->. repeat split.
    - intros Hn. unfold status. simpl in *. rewrite Hn. reflexivity.
    - intros Hn. unfold config. simpl in *. rewrite Hn. reflexivity. }
  set (x := set_initializing false _) in *.
  destruct (Hfinal x eq_refl) as (Hi & Hl & Hs & Hc). clearbody x.
  destruct (_update_listener x); [rewrite Hi|];
    cbn [after result_of world_of self_of trace_of]; auto.
Qed.

Lemma trace_update_status w d :
  trace_of (run update_status w d) = [(WsCall "Shelly.GetStatus" None, d)].
Proof.
  unfold update_status, call_rpc, await_call. simpl.
  destruct (respond (WsCall "Shelly.GetStatus" None) w) as [w' [e|r]]; simpl;
    [|reflexivity].
  destruct (bool_decide (e = InvalidAuthError \/ e = RpcCallError));
    [reflexivity|].
  destruct (is_connect_error e); reflexivity.
Qed.

Lemma run_fetch_status_step (async_init : bool) w d :
  run (fetch_status_step async_init) w d =
    if negb async_init || bool_decide (_status d = None)
    then run update_status w d
    else mkOutcome w d (inr tt) [].
Proof.
  unfold fetch_status_step. rewrite run_get_self_bind.
  destruct (negb async_init || bool_decide (_status d = None)); reflexivity.
Qed.

Lemma fetch_status_step_fetches (async_init : bool) w d :
  existsb is_get_status (calls_of (run (fetch_status_step async_init) w d)) =
    negb async_init || bool_decide (_status d = None).
Proof.
  rewrite run_fetch_status_step. unfold calls_of.
  destruct (negb async_init || bool_decide (_status d = None)).
  - rewrite trace_update_status. reflexivity.
  - reflexivity.
Qed.

Lemma before_status_no_fetch :
  only (fun c => is_get_status c = false)
       (let* _ := probe_and_authenticate in connect_and_configure).
Proof.
  unfold probe_and_authenticate, connect_and_configure,
    update_config, update_profiles,
    get_self, await_get_info, await_connect, modify, prop, perform, ret, raise.
  footprint; try (apply call_rpc_only; reflexivity).
Qed.

Lemma run_with_timeout {A : Type} (m : co (exn + A)) w d :
  run (with_timeout m) w d =
    let o := run m w d in
    mkOutcome (world_of o) (self_of o)
      (match result_of o with
       | inl e => inl (if bool_decide (e = CancelledByTimeout)
                       then TimeoutError else e)
       | inr a => inr a
       end)
      (trace_of o).
Proof.
  unfold with_timeout. rewrite run_try_except. cbv zeta.
  destruct (run m w d) as [w' d' [e|a] tr];
    cbn [after result_of world_of self_of trace_of]; [|reflexivity].
  destruct (bool_decide (e = CancelledByTimeout));
    cbn [run raise]; unfold after;
    cbn [world_of self_of result_of trace_of];
    rewrite app_nil_r; reflexivity.
Qed.

(** The timeout block changes no call, no attribute and no success into
    a failure: the run of the [try] block is that of its steps in a
    row, up to the class of the exception. *)
Lemma initialize_try_split (async_init : bool) w d :
  let o := run (initialize_try async_init) w d in
  let o' := run (let* _ := (let* _ := probe_and_authenticate in
                            connect_and_configure) in
                 let* _ := fetch_status_step async_init in
                 modify (set_initialized true)) w d in
  world_of o = world_of o' /\ self_of o = self_of o' /\
  trace_of o = trace_of o' /\
  (result_of o = inr tt <-> result_of o' = inr tt).
Proof.
  cbv zeta. unfold initialize_try.
  rewrite !run_bindE, run_with_timeout, !run_bindE. cbv zeta.
  destruct (run probe_and_authenticate w d) as [w1 d1 [e|[]] tr1];
    cbn [after result_of world_of self_of trace_of].
  { repeat split; intros; discriminate. }
  destruct (run connect_and_configure w1 d1) as [w2 d2 [e|[]] tr2];
    cbn [after result_of world_of self_of trace_of].
  { unfold after; cbn [result_of world_of self_of trace_of].
    repeat split; intros; discriminate. }
  destruct (run (fetch_status_step async_init) w2 d2) as [w3 d3 [e|[]] tr3];
    unfold after; cbn [result_of world_of self_of trace_of run modify ret];
    rewrite ?app_nil_r, ?app_assoc; repeat split; intros; discriminate.
Qed.

Lemma status_fetch_decision_steps (async_init : bool) w d :
  let o := run (let* _ := (let* _ := probe_and_authenticate in
                           connect_and_configure) in
                let* _ := fetch_status_step async_init in
                modify (set_initialized true)) w d in
  (forall c dc, (c, dc) ∈ trace_of o -> is_get_status c = true ->
                async_init = false \/ _status dc = None) /\
  (result_of o = inr tt ->
   existsb is_get_status (calls_of o) = false ->
   async_init = true /\ _status (self_of o) <> None).
Proof.
  cbv zeta. rewrite run_bindE.
  pose proof (only_run respond interfere _ _ before_status_no_fetch w d) as Hpre.
  rewrite Forall_forall in Hpre.
  destruct (run (let* _ := probe_and_authenticate in connect_and_configure) w d)
    as [w2 d2 [e|[]] tr2]; cbn [after result_of world_of self_of trace_of] in *.
  { split; [|discriminate].
    intros c dc Hin Hc. apply Hpre in Hin. simpl in Hin. congruence. }
  rewrite run_bindE, run_fetch_status_step.
  destruct (negb async_init || bool_decide (_status d2 = None)) eqn:Hcond.
  - pose proof (trace_update_status w2 d2) as Htr.
    assert (async_init = false \/ _status d2 = None) as Hwhy.
    { apply orb_true_iff in Hcond as [Hb|Hs].
      - left. destruct async_init; [discriminate|reflexivity].
      - right. apply bool_decide_eq_true in Hs. exact Hs. }
    destruct (run update_status w2 d2) as [w3 d3 [e|[]] tr3];
      cbn [after result_of world_of self_of trace_of run modify ret] in *;
      subst tr3; unfold calls_of;
      cbn [after result_of world_of self_of trace_of app];
      (split;
       [ intros c dc Hin Hc;
         apply elem_of_app in Hin as [Hin|Hin];
         [ apply Hpre in Hin; simpl in Hin; congruence
         | apply list_elem_of_singleton in Hin; injection Hin as -> ->;
           exact Hwhy ]
       | try discriminate ]).
    intros _ Hno. rewrite map_app, existsb_app in Hno. simpl in Hno.
    rewrite orb_true_r in Hno. discriminate.
  - cbn [after result_of world_of self_of trace_of run modify ret app].
    apply orb_false_iff in Hcond as [Hb Hs].
    split.
    + intros c dc Hin Hc. rewrite !app_nil_r in Hin.
      apply Hpre in Hin. simpl in Hin. congruence.
    + intros _ _. split.
      * destruct async_init; [reflexivity|discriminate].
      * simpl. apply bool_decide_eq_false in Hs. exact Hs.
Qed.

Lemma status_fetch_decision (async_init : bool) w d :
  let o := run (initialize_try async_init) w d in
  (forall c dc, (c, dc) ∈ trace_of o -> is_get_status c = true ->
                async_init = false \/ _status dc = None) /\
  (result_of o = inr tt ->
   existsb is_get_status (calls_of o) = false ->
   async_init = true /\ _status (self_of o) <> None).
Proof.
  cbv zeta.
  destruct (initialize_try_split async_init w d) as (_ & Hd & Htr & Hres).
  destruct (status_fetch_decision_steps async_init w d) as [Hcalls Hskip].
  unfold calls_of in *. rewrite Hd, Htr. split.
  - exact Hcalls.
  - intros Hok. apply Hskip, Hres, Hok.
Qed.

End Lifecycle.

(** ** The flag [_initializing] while [initialize] is suspended *)

Lemma steady_bind {A B : Type} (t : co A) (f : A -> co B) :
  forall d,
    _initializing d = true -> steady t d ->
    (forall a d', _initializing d' = true -> steady (f a) d') ->
    steady (bind t f) d.
Proof.
  induction t as [a|k IH|d' k IH|c k IH]; simpl; intros d Hd Ht Hf.
  - apply Hf. exact Hd.
  - apply IH; auto.
  - destruct Ht as [Heq Hk]. split; [exact Heq|]. apply IH; auto. congruence.
  - destruct Ht as [Hc Hk]. split; [exact Hc|].
    intros x d' Hd'. apply IH; auto. congruence.
Qed.

Lemma steady_bindE {A B : Type} (m : co (exn + A)) (f : A -> co (exn + B)) d :
  _initializing d = true -> steady m d ->
  (forall a d', _initializing d' = true -> steady (f a) d') ->
  steady (bindE m f) d.
Proof.
  intros Hd Hm Hf. apply steady_bind; auto.
  intros [e|a] d' Hd'; simpl; auto.
Qed.

Lemma steady_try_except {A : Type} (m : co (exn + A))
  (h : exn -> co (exn + A)) d :
  _initializing d = true -> steady m d ->
  (forall e d', _initializing d' = true -> steady (h e) d') ->
  steady (try_except m h) d.
Proof.
  intros Hd Hm Hh. apply steady_bind; auto.
  intros [e|a] d' Hd'; simpl; auto.
Qed.

Section Steady.
Context {W : Type}.
Variable respond : forall c : call, W -> W * ans c.
Variable interfere : W -> RpcDevice -> RpcDevice.
Hypothesis interfere_keeps_flag :
  forall w d, _initializing (interfere w d) = _initializing d.

Lemma steady_run {A : Type} (t : co A) :
  forall w d,
    _initializing d = true -> steady t d ->
    Forall awaits_flagged (trace_of (run respond interfere t w d)) /\
    _initializing (self_of (run respond interfere t w d)) = true.
Proof.
  induction t as [a|k IH|d' k IH|c k IH]; simpl; intros w d Hd Ht.
  - split; [constructor|exact Hd].
  - apply IH; auto.
  - destruct Ht as [Heq Hk]. apply IH; auto. congruence.
  - destruct Ht as [Hc Hk].
    assert (_initializing (if suspends c then interfere (respond c w).1 d else d)
            = _initializing d) as Hkeep.
    { destruct (suspends c); [apply interfere_keeps_flag|reflexivity]. }
    destruct (IH (respond c w).2 (respond c w).1 _
                (eq_trans Hkeep Hd) (Hk _ _ Hkeep)) as [Htr Hfin].
    split; [|exact Hfin].
    constructor; [exact Hc|exact Htr].
Qed.
End Steady.

(** Going through a coroutine to see that it is [steady]. *)
Ltac steady_step :=
  repeat first
    [ progress (simpl; intros)
    | apply steady_bindE
    | apply steady_try_except
    | apply steady_bind
    | split
    | assumption
    | congruence
    | match goal with
      | |- steady (match ?x with _ => _ end) _ => destruct x
      | |- steady (if ?x then _ else _) _ => destruct x
      end
    | exact I
    | reflexivity ].

Lemma call_rpc_steady method params d :
  _initializing d = true -> steady (call_rpc method params) d.
Proof.
  intros H. unfold call_rpc, await_call, modify, raise. steady_step.
Qed.

Lemma disconnect_steady d :
  _initializing d = true -> steady _disconnect_websocket d.
Proof.
  intros H.
  unfold _disconnect_websocket, get_self, perform, modify, await_disconnect, ret.
  steady_step.
Qed.

Lemma guarded_steady async_init d :
  _initializing d = true -> steady (guarded async_init) d.
Proof.
  intros H.
  unfold guarded, initialize_try, initialize_except, probe_and_authenticate,
    connect_and_configure, fetch_status_step, update_status, update_config,
    update_profiles, get_self, await_get_info, await_connect, modify, prop,
    perform, ret, raise.
  steady_step; try (apply call_rpc_steady; assumption);
    try (apply disconnect_steady; assumption).
Qed.

Section Claims.
Context {W : Type}.
Variable respond : forall c : call, W -> W * ans c.
Variable interfere : W -> RpcDevice -> RpcDevice.

#[local] Abbreviation run := (run respond interfere).

Lemma initialize_announces (async_init : bool) w d :
  Forall (announces_initialized (run (initialize async_init) w d))
         (trace_of (run (initialize async_init) w d)).
Proof.
  destruct (_initializing d) eqn:H.
  { rewrite run_initialize_rejected by exact H. constructor. }
  rewrite run_initialize by exact H. cbv zeta.
  pose proof (only_run respond interfere _ _ (guarded_no_listener async_init)
                w (entered d)) as Hg.
  assert (forall o : outcome W (exn + unit),
             Forall (announces_initialized o)
                    (trace_of (run (guarded async_init) w (entered d))))
    as Hquiet.
  { intros o. eapply Forall_impl; [exact Hg|].
    intros [c dc] Hc l u Heq. simpl in *. subst c. discriminate. }
  destruct (run (guarded async_init) w (entered d)) as [w' d' [e|[]] tr];
    cbn [after result_of world_of self_of trace_of] in *.
  { apply Hquiet. }
  rewrite run_notify_listener.
  destruct (_update_listener (set_initializing false d')) as [l|] eqn:El;
    [destruct (initialized (set_initializing false d')) eqn:Ei|];
    cbn [after result_of world_of self_of trace_of];
    rewrite ?app_nil_r; try apply Hquiet.
  apply Forall_app. split; [apply Hquiet|].
  constructor; [|constructor].
  intros l' u Heq. simpl in Heq. injection Heq as <- <-.
  cbn [result_of self_of]. auto.
Qed.

Lemma initialize_awaits_flagged (async_init : bool) w d :
  (forall w' d', _initializing (interfere w' d') = _initializing d') ->
  _initializing d = false ->
  Forall awaits_flagged (trace_of (run (initialize async_init) w d)).
Proof.
  intros Hkeep H. rewrite run_initialize by exact H. cbv zeta.
  destruct (steady_run respond interfere Hkeep (guarded async_init) w
              (entered d) eq_refl
              (guarded_steady async_init (entered d) eq_refl))
    as [Hg _].
  destruct (run (guarded async_init) w (entered d)) as [w' d' [e|[]] tr];
    cbn [after result_of world_of self_of trace_of] in *; [exact Hg|].
  apply Forall_app. split; [exact Hg|].
  rewrite run_notify_listener.
  destruct (_update_listener _); [destruct (initialized _)|];
    cbn [trace_of]; try constructor; try constructor.
  intros Hs. discriminate.
Qed.

End Claims.

(** ** The claims about the controller *)

(** C1, as amended.  While [initialized] is not set, [status], [event],
    [config], [profiles] and [profile] raise [NotInitialized]; [shelly]
    raises it exactly when no identity has been stored; [last_error] and
    [connected] never raise: they return the stored error and the
    liveness flag of the transport. *)
Theorem accessors_before_initialization {W : Type}
  (respond : forall c : call, W -> W * ans c)
  (interfere : W -> RpcDevice -> RpcDevice) (d : RpcDevice) :
  initialized d = false ->
  status d = inl NotInitialized /\
  event d = inl NotInitialized /\
  config d = inl NotInitialized /\
  profiles d = inl NotInitialized /\
  profile d = inl NotInitialized /\
  (shelly d = inl NotInitialized <-> _shelly d = None) /\
  last_error d = inr (_last_error d) /\
  (forall w, result_of (run respond interfere connected w d)
             = inr (snd (respond WsConnected w))).
Proof.
  intros H. unfold status, event, config, profiles, profile, shelly, last_error.
  rewrite H. simpl. repeat split; auto.
  - destruct (_shelly d); [discriminate|reflexivity].
  - intros ->. reflexivity.
Qed.

Lemma accessors_before_initialization_witness :
  initialized (init_device some_options) = false /\
  status (init_device some_options) = inl NotInitialized /\
  last_error (init_device some_options) = inr None.
Proof.
  pose proof (accessors_before_initialization (respond_ok ∅) quiet
                (init_device some_options) eq_refl)
    as (Hstatus & _ & _ & _ & _ & _ & Hlast & _).
  split; [reflexivity|]. split; [exact Hstatus|exact Hlast].
Defined.

(** C1, as stated, fails: on a controller that was just created,
    [last_error] returns [None] and [connected] returns the flag of the
    transport; and after an [initialize] that failed because the
    transport rejected the credentials, [initialized] is not set, yet
    [shelly] returns the identity and [last_error] the error. *)
Lemma accessors_readable_before_initialization :
  initialized (init_device some_options) = false /\
  last_error (init_device some_options) = inr None /\
  result_of (run (respond_ok ∅) quiet connected tt (init_device some_options))
  = inr true /\
  let o := run (respond_auth_rejected open_info) quiet (initialize false) tt
               (init_device some_options) in
  result_of o = inl InvalidAuthError /\
  initialized (self_of o) = false /\
  shelly (self_of o) = inr open_info /\
  last_error (self_of o) = inr (Some InvalidAuthError).
Proof. vm_compute. repeat split. Qed.

(** C4.  What [_on_notification] does to the cache depends on the kind
    of message alone: a full status replaces [_status] by the pushed
    dictionary; a partial status is merged into [_status] by
    [mergedicts], and changes nothing when there is no [_status]; an
    event replaces [_event]; the closing of the transport, a message of
    another kind and a message without parameters change nothing. *)
Theorem on_notification_cache_effect {W : Type}
  (respond : forall c : call, W -> W * ans c)
  (interfere : W -> RpcDevice -> RpcDevice)
  (w : W) (d : RpcDevice) (params : dict) (method : string) :
  self_of (run respond interfere
             (_on_notification "NotifyFullStatus" (Some params)) w d)
  = set_status (Some params) d /\
  (forall old, _status d = Some old ->
     self_of (run respond interfere
                (_on_notification "NotifyStatus" (Some params)) w d)
     = set_status (Some (mergedicts old params)) d) /\
  (_status d = None ->
     self_of (run respond interfere
                (_on_notification "NotifyStatus" (Some params)) w d) = d) /\
  self_of (run respond interfere
             (_on_notification "NotifyEvent" (Some params)) w d)
  = set_event (Some params) d /\
  self_of (run respond interfere
             (_on_notification NOTIFY_WS_CLOSED None) w d) = d /\
  (method <> "NotifyFullStatus" -> method <> "NotifyStatus" ->
   method <> "NotifyEvent" ->
     self_of (run respond interfere
                (_on_notification method (Some params)) w d) = d) /\
  self_of (run respond interfere (_on_notification method None) w d) = d.
Proof.
  rewrite !on_notification_cache. unfold notified.
  repeat split.
  - intros old Hold. simpl. rewrite Hold. reflexivity.
  - intros Hnone. simpl. rewrite Hnone. reflexivity.
  - intros H1 H2 H3.
    apply String.eqb_neq in H1, H2, H3. rewrite H1, H2, H3. reflexivity.
Qed.

Lemma on_notification_cache_effect_witness :
  self_of (run (respond_ok ∅) quiet
             (_on_notification "NotifyStatus"
                (Some {[ "a" := VDict {[ "y" := VInt 3 ]} ]}))
             tt
             (set_status
                (Some {[ "a" := VDict {[ "x" := VInt 1; "y" := VInt 2 ]} ]})
                (init_device some_options)))
  = set_status
      (Some (mergedicts {[ "a" := VDict {[ "x" := VInt 1; "y" := VInt 2 ]} ]}
                        {[ "a" := VDict {[ "y" := VInt 3 ]} ]}))
      (init_device some_options).
Proof.
  apply (proj1 (proj2 (on_notification_cache_effect (respond_ok ∅) quiet tt
                         (set_status
                            (Some {[ "a" := VDict {[ "x" := VInt 1;
                                                     "y" := VInt 2 ]} ]})
                            (init_device some_options))
                         {[ "a" := VDict {[ "y" := VInt 3 ]} ]} ""))).
  reflexivity.
Defined.

(** C5.  A call to [initialize] made while [_initializing] is set raises
    [RuntimeError] at once: it makes no call and is not suspended, and
    it leaves the attributes and the world as they were, so that
    whatever is still to run of the pending call runs as it would have.
    And a pending call is one that has [_initializing] set: at every
    [await] of an [initialize] that started with the flag down, the flag
    is up, as long as the code that runs meanwhile leaves it alone. *)
Theorem initialize_rejects_reentry {W : Type}
  (respond : forall c : call, W -> W * ans c)
  (interfere : W -> RpcDevice -> RpcDevice)
  (async_init : bool) (w : W) (d : RpcDevice) :
  (_initializing d = true ->
   let o := run respond interfere (initialize async_init) w d in
   result_of o = inl RuntimeError /\ trace_of o = [] /\
   self_of o = d /\ world_of o = w /\
   forall (A : Type) (pending : co A),
     run respond interfere pending (world_of o) (self_of o)
     = run respond interfere pending w d) /\
  ((forall w' d', _initializing (interfere w' d') = _initializing d') ->
   _initializing d = false ->
   Forall awaits_flagged
          (trace_of (run respond interfere (initialize async_init) w d))).
Proof.
  split.
  - intros H. cbv zeta. rewrite run_initialize_rejected by exact H.
    repeat split.
  - apply initialize_awaits_flagged.
Qed.

Lemma initialize_rejects_reentry_witness :
  result_of (run (respond_ok open_info) quiet (initialize false) tt
               (set_initializing true (init_device some_options)))
  = inl RuntimeError /\
  self_of (run (respond_ok open_info) quiet (initialize false) tt
             (set_initializing true (init_device some_options)))
  = set_initializing true (init_device some_options).
Proof.
  destruct (proj1 (initialize_rejects_reentry (respond_ok open_info) quiet
                     false tt
                     (set_initializing true (init_device some_options)))
              eq_refl)
    as (Hresult & _ & Hself & _).
  split; [exact Hresult|exact Hself].
Defined.

(** C6.  When the [try] block of a lazy [initialize] raises
    [InvalidAuthError], the call returns normally with [initialized]
    set and the error in [_last_error]; [status] then raises
    [InvalidAuthError] if no status is cached, and [config] if no
    configuration is. *)
Theorem lazy_initialize_defers_auth_failure {W : Type}
  (respond : forall c : call, W -> W * ans c)
  (interfere : W -> RpcDevice -> RpcDevice) (w : W) (d : RpcDevice) :
  _initializing d = false ->
  result_of (run respond interfere (initialize_try true) w (entered d))
  = inl InvalidAuthError ->
  let o := run respond interfere (initialize true) w d in
  result_of o = inr tt /\
  initialized (self_of o) = true /\
  _last_error (self_of o) = Some InvalidAuthError /\
  (_status (self_of o) = None -> status (self_of o) = inl InvalidAuthError) /\
  (_config (self_of o) = None -> config (self_of o) = inl InvalidAuthError).
Proof. apply lazy_auth_failure_deferred. Qed.

Lemma lazy_initialize_defers_auth_failure_witness :
  let o := run (respond_auth_rejected open_info) quiet (initialize true) tt
               (init_device some_options) in
  result_of o = inr tt /\
  initialized (self_of o) = true /\
  _last_error (self_of o) = Some InvalidAuthError /\
  (_status (self_of o) = None -> status (self_of o) = inl InvalidAuthError) /\
  (_config (self_of o) = None -> config (self_of o) = inl InvalidAuthError).
Proof.
  apply (lazy_initialize_defers_auth_failure (respond_auth_rejected open_info)
           quiet tt (init_device some_options)).
  - reflexivity.
  - vm_compute. reflexivity.
Defined.

(** The accessors after that run. *)
Example status_after_deferred_auth_failure :
  status (self_of (run (respond_auth_rejected open_info) quiet
                     (initialize true) tt (init_device some_options)))
  = inl InvalidAuthError.
Proof. vm_compute. reflexivity. Qed.

(** C7.  The step [fetch_status_step] calls [Shelly.GetStatus] unless
    the call is lazy and a status is cached; in a run of the [try] block
    of [initialize], [Shelly.GetStatus] is called only with a call that
    is not lazy or no status cached at that moment, and a [try] block
    that ends normally without that call was lazy, with a status
    cached. *)
Theorem status_fetch_skipped_when_lazy_and_cached {W : Type}
  (respond : forall c : call, W -> W * ans c)
  (interfere : W -> RpcDevice -> RpcDevice)
  (async_init : bool) (w : W) (d : RpcDevice) :
  existsb is_get_status
          (calls_of (run respond interfere (fetch_status_step async_init) w d))
  = negb (async_init && negb (bool_decide (_status d = None))) /\
  let o := run respond interfere (initialize_try async_init) w d in
  (forall c dc, (c, dc) ∈ trace_of o -> is_get_status c = true ->
                async_init = false \/ _status dc = None) /\
  (result_of o = inr tt ->
   existsb is_get_status (calls_of o) = false ->
   async_init = true /\ _status (self_of o) <> None).
Proof.
  split.
  - rewrite fetch_status_step_fetches.
    destruct async_init, (bool_decide (_status d = None)); reflexivity.
  - apply status_fetch_decision.
Qed.

Lemma status_fetch_skipped_when_lazy_and_cached_witness :
  true = true /\
  _status (self_of (run (respond_ok open_info) quiet (initialize_try true) tt
                      (set_status (Some ∅) (init_device some_options))))
  <> None.
Proof.
  apply (proj2 (proj2 (status_fetch_skipped_when_lazy_and_cached
                         (respond_ok open_info) quiet true tt
                         (set_status (Some ∅) (init_device some_options))))).
  - vm_compute. reflexivity.
  - vm_compute. reflexivity.
Defined.

Example eager_initialize_fetches_status :
  calls_of (run (respond_ok open_info) quiet (initialize false) tt
              (set_status (Some ∅) (init_device some_options)))
  = [GetInfo "192.168.1.2" None; WsConnect; WsCall "Shelly.GetConfig" None;
     WsCall "Shelly.GetStatus" None].
Proof. vm_compute. reflexivity. Qed.

Example lazy_initialize_skips_cached_status :
  calls_of (run (respond_ok open_info) quiet (initialize true) tt
              (set_status (Some ∅) (init_device some_options)))
  = [GetInfo "192.168.1.2" None; WsConnect; WsCall "Shelly.GetConfig" None].
Proof. vm_compute. reflexivity. Qed.

Example lazy_initialize_fetches_missing_status :
  calls_of (run (respond_ok open_info) quiet (initialize true) tt
              (init_device some_options))
  = [GetInfo "192.168.1.2" None; WsConnect; WsCall "Shelly.GetConfig" None;
     WsCall "Shelly.GetStatus" None].
Proof. vm_compute. reflexivity. Qed.

(** C8.  The subscriber is called only with [initialized] set:
    [_on_notification] calls it only in a state that has [initialized]
    set and holds that subscriber, and so does [initialize], which calls
    it only to announce [INITIALIZED], at the end of a call that returns
    normally with [initialized] set. *)
Theorem listener_called_only_when_initialized {W : Type}
  (respond : forall c : call, W -> W * ans c)
  (interfere : W -> RpcDevice -> RpcDevice)
  (method : string) (params : option dict) (async_init : bool)
  (w : W) (d : RpcDevice) :
  Forall listener_ready
         (trace_of (run respond interfere (_on_notification method params) w d))
  /\
  Forall listener_ready
         (trace_of (run respond interfere (initialize async_init) w d)) /\
  Forall (announces_initialized
            (run respond interfere (initialize async_init) w d))
         (trace_of (run respond interfere (initialize async_init) w d)).
Proof.
  split; [|split].
  - apply on_notification_listener_ready.
  - apply initialize_listener_ready.
  - apply initialize_announces.
Qed.

(** A subscriber registered on a controller that is not initialized is
    not called by a notification: the first contact starts the lazy
    initialization instead. *)
Example first_contact_does_not_call_listener :
  calls_of (run (respond_ok open_info) quiet
              (_on_notification "NotifyFullStatus" (Some ∅)) tt
              (set_update_listener (Some 7) (init_device some_options)))
  = [CreateTask_async_init].
Proof. vm_compute. reflexivity. Qed.

Example initialized_controller_calls_listener :
  calls_of (run (respond_ok open_info) quiet
              (_on_notification "NotifyFullStatus" (Some ∅)) tt
              (set_initialized true
                 (set_update_listener (Some 7) (init_device some_options))))
  = [Listener 7 STATUS].
Proof. vm_compute. reflexivity. Qed.

(** C9.  When the cached identity has no ["profile"] key, or holds the
    requested name under it, [set_profile] returns at once: no call is
    made, and the attributes and the world are as they were. *)
Theorem set_profile_noop {W : Type}
  (respond : forall c : call, W -> W * ans c)
  (interfere : W -> RpcDevice -> RpcDevice)
  (polls : nat) (profile_name : string) (sh : dict) (w : W) (d : RpcDevice) :
  _shelly d = Some sh ->
  sh !! "profile" = None \/ sh !! "profile" = Some (VStr profile_name) ->
  run respond interfere (set_profile polls profile_name) w d
  = mkOutcome w d (Some (inr tt)) [].
Proof.
  intros Hsh Hp. unfold set_profile. simpl. rewrite Hsh.
  destruct Hp as [-> | ->]; [reflexivity|].
  simpl. rewrite String.eqb_refl, andb_false_r. reflexivity.
Qed.

Lemma set_profile_noop_witness :
  run (respond_ok open_info) quiet (set_profile 3 "cover") tt
      (set_shelly (Some {[ "profile" := VStr "cover" ]})
                  (init_device some_options))
  = mkOutcome tt
      (set_shelly (Some {[ "profile" := VStr "cover" ]})
                  (init_device some_options))
      (Some (inr tt)) [].
Proof.
  apply (set_profile_noop (respond_ok open_info) quiet 3 "cover"
           {[ "profile" := VStr "cover" ]}).
  - reflexivity.
  - right. reflexivity.
Defined.

(** With another profile cached, the same call goes through the
    protocol: the RPC, the shutdown, the polling and a new [initialize]
    (which stops at the list of profiles here, the transport of this
    world answering with an empty dictionary). *)
Example set_profile_switches :
  calls_of (run (respond_ok {[ "profile" := VStr "cover";
                               "auth_en" := VBool false ]}) quiet
              (set_profile 3 "cover") tt
              (set_shelly (Some {[ "profile" := VStr "switch" ]})
                          (init_device some_options)))
  = [WsCall "Shelly.SetProfile" (Some {[ "name" := VStr "cover" ]});
     UnsubWs; WsDisconnect; Sleep 2; Sleep 1; GetInfo "192.168.1.2" None;
     GetInfo "192.168.1.2" None; WsConnect; WsCall "Shelly.GetConfig" None;
     WsCall "Shelly.ListProfiles" None].
Proof. vm_compute. reflexivity. Qed.

(** C10, as amended.  A call to [initialize] that finds [_initializing]
    down leaves it down, whether it returns normally or raises, and
    whatever the calls answer and the other code does meanwhile. *)
Theorem initialize_releases_flag {W : Type}
  (respond : forall c : call, W -> W * ans c)
  (interfere : W -> RpcDevice -> RpcDevice)
  (async_init : bool) (w : W) (d : RpcDevice) :
  _initializing d = false ->
  _initializing (self_of (run respond interfere (initialize async_init) w d))
  = false.
Proof. apply initialize_flag_released. Qed.

Lemma initialize_releases_flag_witness :
  _initializing
    (self_of (run (respond_auth_rejected open_info) quiet (initialize false)
                tt (init_device some_options)))
  = false.
Proof.
  apply (initialize_releases_flag (respond_auth_rejected open_info) quiet
           false tt (init_device some_options)).
  reflexivity.
Defined.

(** The timeout block expiring during the status fetch: the call raises
    [DeviceConnectionError], keeps it as the last error and lets go of
    the flag. *)
Example initialize_timeout_expired :
  let o := run (respond_status_expired open_info) quiet (initialize false) tt
               (init_device some_options) in
  result_of o = inl DeviceConnectionError /\
  _last_error (self_of o) = Some DeviceConnectionError /\
  initialized (self_of o) = false /\
  _initializing (self_of o) = false.
Proof. vm_compute. repeat split. Qed.

(** C10, as stated, fails: the call that the guard rejects raises and
    leaves [_initializing] up, as it found it. *)
Lemma rejected_initialize_leaves_flag_up :
  result_of (run (respond_ok open_info) quiet (initialize false) tt
               (set_initializing true (init_device some_options)))
  = inl RuntimeError /\
  _initializing
    (self_of (run (respond_ok open_info) quiet (initialize false) tt
                (set_initializing true (init_device some_options))))
  = true.
Proof. split; reflexivity. Qed.

(** * Further properties

    Properties of the functions of [device.py] beyond the statements
    above. *)

(** ** The status merge *)

Lemma mergedicts_absorb (d1 : dict) :
  forall d2 : dict, mergedicts (mergedicts d1 d2) d2 = mergedicts d1 d2.
Proof.
  induction d1 as [d1 IH] using dict_nested_ind.
  intros d2. apply map_eq. intros k.
  rewrite !mergedicts_lookup. unfold merged_value.
  rewrite !mergedicts_lookup. unfold merged_value.
  pose proof (IH k) as IHk.
  destruct (d2 !! k) as [v2|]; destruct (d1 !! k) as [v1|];
    try destruct v2; try destruct v1; simpl; try reflexivity;
    rewrite ?mergedicts_diag; try reflexivity.
  rewrite (IHk _ eq_refl). reflexivity.
Qed.

(** X1.  Merging with an empty update changes nothing, and merging an
    update into an empty dictionary gives the update. *)
Theorem mergedicts_empty (d : dict) :
  mergedicts d ∅ = d /\ mergedicts ∅ d = d.
Proof.
  split; apply map_eq; intros k; rewrite mergedicts_lookup, lookup_empty.
  - destruct (d !! k) as [v|] eqn:Hk; [|reflexivity].
    rewrite (merged_value_own _ _ _ Hk). reflexivity.
  - unfold merged_value. rewrite lookup_empty.
    destruct (d !! k) as [[]|]; reflexivity.
Qed.

(** X3.  The keys of the merge are the keys of the two dictionaries
    together: no key is lost and none is made up. *)
Theorem mergedicts_keys (d1 d2 : dict) :
  dom (mergedicts d1 d2) = dom d1 ∪ dom d2.
Proof.
  apply set_eq. intros k.
  rewrite elem_of_union, !elem_of_dom, mergedicts_lookup.
  destruct (d2 !! k), (d1 !! k); split; intros H;
    try (destruct H as [H|H]); eauto;
    try (destruct H as [? H]; discriminate).
Qed.

(** X5.  When no value of the update is a dictionary, the merge is the
    plain [dict.update]: the update's entries, then the entries of
    [dict1] under the other keys. *)
Theorem mergedicts_flat_update (d1 d2 : dict) :
  (forall k v, d2 !! k = Some v -> is_dict v = false) ->
  mergedicts d1 d2 = d2 ∪ d1.
Proof.
  intros Hflat. apply map_eq. intros k.
  rewrite mergedicts_lookup, lookup_union.
  destruct (d2 !! k) as [v2|] eqn:H2.
  - specialize (Hflat _ _ H2). unfold merged_value.
    destruct v2; try discriminate; destruct (d1 !! k); reflexivity.
  - destruct (d1 !! k) as [v1|] eqn:H1; [|reflexivity].
    rewrite (merged_value_own _ _ _ H1). reflexivity.
Qed.

Lemma mergedicts_flat_update_witness :
  mergedicts {[ "a" := VDict {[ "x" := VInt 1 ]}; "b" := VInt 2 ]}
             {[ "a" := VInt 5 ]}
  = {[ "a" := VInt 5 ]}
      ∪ {[ "a" := VDict {[ "x" := VInt 1 ]}; "b" := VInt 2 ]}.
Proof.
  apply (mergedicts_flat_update
           {[ "a" := VDict {[ "x" := VInt 1 ]}; "b" := VInt 2 ]}
           {[ "a" := VInt 5 ]}).
  intros k v H. apply lookup_singleton_Some in H as [_ <-]. reflexivity.
Defined.

(** X2.  Merging a dictionary into itself gives it back. *)
Theorem mergedicts_idempotent (d : dict) : mergedicts d d = d.
Proof. apply mergedicts_diag. Qed.

(** X4.  An update merged a second time changes nothing more. *)
Theorem mergedicts_replay (dict1 dict2 : dict) :
  mergedicts (mergedicts dict1 dict2) dict2 = mergedicts dict1 dict2.
Proof. apply mergedicts_absorb. Qed.

(** X6.  Every value of the update that is not a dictionary is found in
    the merge at the same key path, whatever [dict1] holds there. *)
Theorem mergedicts_update_leaves_win (path : list string) :
  forall (dict1 dict2 : dict) (leaf : value),
    at_path path (VDict dict2) = Some leaf ->
    is_dict leaf = false ->
    at_path path (VDict (mergedicts dict1 dict2)) = Some leaf.
Proof.
  induction path as [|key path IH]; intros dict1 dict2 leaf Hat Hleaf.
  - simpl in Hat. injection Hat as <-. discriminate.
  - simpl in *. rewrite mergedicts_lookup.
    destruct (dict2 !! key) as [v2|]; [|discriminate].
    unfold merged_value.
    destruct path as [|key' path'].
    + simpl in *. injection Hat as ->.
      destruct leaf; try reflexivity. discriminate.
    + destruct v2; try discriminate.
      destruct (dict1 !! key) as [[]|]; try exact Hat.
      apply IH; assumption.
Qed.

Lemma mergedicts_update_leaves_win_witness :
  at_path ["a"; "y"]
    (VDict (mergedicts {[ "a" := VDict {[ "x" := VInt 1; "y" := VInt 2 ]} ]}
                       {[ "a" := VDict {[ "y" := VInt 3 ]} ]}))
  = Some (VInt 3).
Proof.
  apply (mergedicts_update_leaves_win ["a"; "y"]
           {[ "a" := VDict {[ "x" := VInt 1; "y" := VInt 2 ]} ]}
           {[ "a" := VDict {[ "y" := VInt 3 ]} ]} (VInt 3)).
  - vm_compute. reflexivity.
  - reflexivity.
Defined.

(** ** The RPC methods *)

Section Rpc.
Context {W : Type}.
Variable respond : forall c : call, W -> W * ans c.
Variable interfere : W -> RpcDevice -> RpcDevice.

Lemma run_call_rpc method params w d :
  run respond interfere (call_rpc method params) w d =
    let wx := respond (WsCall method params) w in
    let d1 := interfere (fst wx) d in
    let tr := [(WsCall method params, d)] in
    match snd wx with
    | inr r => mkOutcome (fst wx) d1 (inr r) tr
    | inl e =>
        if bool_decide (e = InvalidAuthError \/ e = RpcCallError) then
          mkOutcome (fst wx) (set_last_error (Some e) d1) (inl e) tr
        else if is_connect_error e then
          mkOutcome (fst wx) (set_last_error (Some DeviceConnectionError) d1)
                    (inl DeviceConnectionError) tr
        else mkOutcome (fst wx) d1 (inl e) tr
    end.
Proof.
  unfold call_rpc, await_call. simpl.
  destruct (respond (WsCall method params) w) as [w' [e|r]]; simpl;
    [|reflexivity].
  destruct (bool_decide (e = InvalidAuthError \/ e = RpcCallError));
    [reflexivity|].
  destruct (is_connect_error e); reflexivity.
Qed.

End Rpc.

(** X7.  [call_rpc] makes the one call to the transport.  It never
    raises [aiohttp.ClientError], [asyncio.TimeoutError] or [OSError]:
    those come out as [DeviceConnectionError].  When it raises
    [InvalidAuthError], [RpcCallError] or [DeviceConnectionError], that
    error is stored in [_last_error]; when it returns, it returns the
    answer and has written no attribute. *)
Theorem call_rpc_errors {W : Type}
  (respond : forall c : call, W -> W * ans c)
  (interfere : W -> RpcDevice -> RpcDevice)
  (method : string) (params : option dict) (w : W) (d : RpcDevice) :
  let o := run respond interfere (call_rpc method params) w d in
  let answer := respond (WsCall method params) w in
  calls_of o = [WsCall method params] /\
  result_of o <> inl ClientError /\
  result_of o <> inl TimeoutError /\
  result_of o <> inl OSError /\
  (forall e, result_of o = inl e ->
             e = InvalidAuthError \/ e = RpcCallError \/
             e = DeviceConnectionError ->
             self_of o = set_last_error (Some e) (interfere (fst answer) d)) /\
  (forall r, result_of o = inr r ->
             snd answer = inr r /\ self_of o = interfere (fst answer) d).
Proof.
  cbv zeta. rewrite run_call_rpc. cbv zeta.
  destruct (respond (WsCall method params) w) as [w' [e|r]];
    cbn [fst snd].
  - destruct e;
      repeat match goal with
             | |- context [if ?b then _ else _] =>
                 let v := eval vm_compute in b in change b with v; cbv iota
             end;
      cbn [result_of self_of];
      (split; [reflexivity|]);
      (split; [discriminate|]); (split; [discriminate|]);
      (split; [discriminate|]);
      (split; [|intros r Hr; discriminate]);
      intros e0 He0 Hcls; injection He0 as <-;
      first [reflexivity | destruct Hcls as [?|[?|?]]; discriminate].
  - cbn [result_of self_of]. split; [reflexivity|].
    split; [discriminate|]. split; [discriminate|]. split; [discriminate|].
    split; [discriminate|].
    intros r' Hr'. injection Hr' as <-. split; reflexivity.
Qed.

Lemma call_rpc_errors_witness :
  self_of (run (respond_rpc_refused open_info) quiet
             (call_rpc "Shelly.GetStatus" None) tt (init_device some_options))
  = set_last_error (Some RpcCallError) (init_device some_options).
Proof.
  apply (proj1 (proj2 (proj2 (proj2 (proj2
           (call_rpc_errors (respond_rpc_refused open_info) quiet
              "Shelly.GetStatus" None tt (init_device some_options))))))).
  - vm_compute. reflexivity.
  - right. left. reflexivity.
Defined.

(** X8.  [update_status] and [update_config] store the answer of the
    device when the call succeeds; when it fails they raise and leave
    the cached status, or configuration, as it was. *)
Theorem refresh_keeps_cache_on_failure {W : Type}
  (respond : forall c : call, W -> W * ans c)
  (interfere : W -> RpcDevice -> RpcDevice) (w : W) (d : RpcDevice) :
  let os := run respond interfere update_status w d in
  let oc := run respond interfere update_config w d in
  let ws := respond (WsCall "Shelly.GetStatus" None) w in
  let wc := respond (WsCall "Shelly.GetConfig" None) w in
  match snd ws with
  | inr r => result_of os = inr tt /\
             self_of os = set_status (Some r) (interfere (fst ws) d)
  | inl _ => (exists e, result_of os = inl e) /\
             _status (self_of os) = _status (interfere (fst ws) d)
  end /\
  match snd wc with
  | inr r => result_of oc = inr tt /\
             self_of oc = set_config (Some r) (interfere (fst wc) d)
  | inl _ => (exists e, result_of oc = inl e) /\
             _config (self_of oc) = _config (interfere (fst wc) d)
  end.
Proof.
  cbv zeta. unfold update_status, update_config.
  rewrite !run_bindE, !run_call_rpc. cbv zeta.
  split.
  - destruct (respond (WsCall "Shelly.GetStatus" None) w) as [w' [e|r]];
      cbn [fst snd]; [|split; reflexivity].
    destruct (bool_decide (e = InvalidAuthError \/ e = RpcCallError));
      [|destruct (is_connect_error e)];
      cbn [result_of self_of]; split; eauto.
  - destruct (respond (WsCall "Shelly.GetConfig" None) w) as [w' [e|r]];
      cbn [fst snd]; [|split; reflexivity].
    destruct (bool_decide (e = InvalidAuthError \/ e = RpcCallError));
      [|destruct (is_connect_error e)];
      cbn [result_of self_of]; split; eauto.
Qed.

(** X9.  [update_profiles] raises [NotInitialized] without any call when
    no identity is cached, and returns without any call when the
    identity declares no profile.  Otherwise it asks for the list once;
    an answer without the key ["profiles"] is a [KeyError] that leaves
    the attributes alone, and a failed call leaves [_profiles] as it
    was. *)
Theorem update_profiles_edges {W : Type}
  (respond : forall c : call, W -> W * ans c)
  (interfere : W -> RpcDevice -> RpcDevice) (w : W) (d : RpcDevice) :
  let o := run respond interfere update_profiles w d in
  let wx := respond (WsCall "Shelly.ListProfiles" None) w in
  match _shelly d with
  | None => o = mkOutcome w d (inl NotInitialized) []
  | Some sh =>
      match sh !! "profile" with
      | None => o = mkOutcome w d (inr tt) []
      | Some _ =>
          calls_of o = [WsCall "Shelly.ListProfiles" None] /\
          match snd wx with
          | inr r =>
              match r !! "profiles" with
              | Some ps =>
                  result_of o = inr tt /\
                  self_of o = set_profiles (Some ps) (interfere (fst wx) d)
              | None =>
                  result_of o = inl KeyError /\
                  self_of o = interfere (fst wx) d
              end
          | inl _ =>
              (exists e, result_of o = inl e) /\
              _profiles (self_of o) = _profiles (interfere (fst wx) d)
          end
      end
  end.
Proof.
  cbv zeta. unfold update_profiles, prop, shelly. simpl run.
  destruct (_shelly d) as [sh|]; [|reflexivity].
  destruct (sh !! "profile") as [v|] eqn:Hp.
  - cbn [bindE bind].
    replace (bool_decide (is_Some (Some v))) with true
      by (symmetry; apply bool_decide_eq_true; eauto).
    rewrite run_bindE, run_call_rpc. cbv zeta.
    destruct (respond (WsCall "Shelly.ListProfiles" None) w) as [w' [e|r]];
      cbn [fst snd].
    + destruct (bool_decide (e = InvalidAuthError \/ e = RpcCallError));
        [|destruct (is_connect_error e)];
        cbn [result_of self_of trace_of calls_of map fst]; repeat split; eauto.
    + cbn [result_of self_of world_of trace_of].
      destruct (r !! "profiles"); unfold after;
        cbn [run modify ret raise result_of self_of world_of trace_of
             calls_of map fst app]; repeat split.
  - cbn [bindE bind].
    replace (bool_decide (is_Some (@None value))) with false; [reflexivity|].
    symmetry. apply bool_decide_eq_false. intros [? ?]. discriminate.
Qed.

Ltac unroll :=
  cbn [run bind bindE try_except ret raise modify perform logged
       result_of world_of self_of trace_of fst snd suspends calls_of
       map existsb app].

Ltac rpc_cases :=
  repeat (unroll;
          match goal with
          | |- context [snd ?x] =>
              let w' := fresh "w" in
              let e := fresh "e" in
              let r := fresh "r" in
              destruct x as [w' [e|r]]
          | |- context [bool_decide (?e = InvalidAuthError \/ ?e = RpcCallError)] =>
              destruct (bool_decide (e = InvalidAuthError \/ e = RpcCallError))
          | |- context [is_connect_error ?e] => destruct (is_connect_error e)
          | |- context [match ?m !! ?k with _ => _ end] =>
              destruct (m !! k) eqn:?
          | |- context [if truthy ?v then _ else _] => destruct (truthy v) eqn:?
          | |- context [if equals_str ?v ?s then _ else _] =>
              destruct (equals_str v s) eqn:?
          end).

(** X10.  [update_outbound_websocket] returns [True] only after the
    three calls [Ws.GetConfig], [Ws.SetConfig] (enabled, the given
    server, any certificate) and [Shelly.Reboot] with a delay of 3500
    ms; when it returns [False] it has not asked for a reboot. *)
Theorem outbound_websocket_reboot {W : Type}
  (respond : forall c : call, W -> W * ans c)
  (interfere : W -> RpcDevice -> RpcDevice)
  (server : string) (w : W) (d : RpcDevice) :
  let o := run respond interfere (update_outbound_websocket server) w d in
  match result_of o with
  | inr true =>
      calls_of o = [WsCall "Ws.GetConfig" None;
                    WsCall "Ws.SetConfig" (ws_config_params server);
                    WsCall "Shelly.Reboot" (Some {[ "delay_ms" := VInt 3500 ]})]
  | inr false => existsb is_reboot (calls_of o) = false
  | inl _ => True
  end.
Proof.
  cbv zeta. unfold update_outbound_websocket, ws_getconfig, ws_setconfig,
    trigger_reboot, call_rpc, await_call.
  rpc_cases; first [exact I | reflexivity].
Qed.

(** X11.  When the device reports its outbound websocket enabled for the
    requested server, [update_outbound_websocket] returns [False] after
    the one call [Ws.GetConfig]: nothing is set and nothing rebooted. *)
Theorem outbound_websocket_configured {W : Type}
  (respond : forall c : call, W -> W * ans c)
  (interfere : W -> RpcDevice -> RpcDevice)
  (server : string) (w : W) (d : RpcDevice) (ws_config : dict)
  (enable : value) :
  snd (respond (WsCall "Ws.GetConfig" None) w) = inr ws_config ->
  ws_config !! "enable" = Some enable ->
  truthy enable = true ->
  ws_config !! "server" = Some (VStr server) ->
  let o := run respond interfere (update_outbound_websocket server) w d in
  result_of o = inr false /\ calls_of o = [WsCall "Ws.GetConfig" None].
Proof.
  intros Hans Hen Htr Hsrv. cbv zeta.
  unfold update_outbound_websocket, ws_getconfig, call_rpc, await_call.
  unroll. destruct (respond (WsCall "Ws.GetConfig" None) w) as [w1 a].
  cbn [snd fst] in *. subst a. unroll. rewrite Hen, Htr, Hsrv.
  unfold equals_str. rewrite String.eqb_refl. unroll. split; reflexivity.
Qed.

Lemma outbound_websocket_configured_witness :
  let o := run (respond_ws_enabled "wss://hub/ws") quiet
               (update_outbound_websocket "wss://hub/ws") tt
               (init_device some_options) in
  result_of o = inr false /\ calls_of o = [WsCall "Ws.GetConfig" None].
Proof.
  apply (outbound_websocket_configured (respond_ws_enabled "wss://hub/ws")
           quiet "wss://hub/ws" tt (init_device some_options)
           {[ "enable" := VBool true; "server" := VStr "wss://hub/ws" ]}
           (VBool true)).
  - reflexivity.
  - vm_compute. reflexivity.
  - reflexivity.
  - vm_compute. reflexivity.
Defined.

(** ** Invariants and postconditions of coroutines *)

Lemma holds_bind {A B : Type} (P : RpcDevice -> Prop) (t : co A)
  (f : A -> co B) :
  forall d,
    P d -> holds P t d ->
    (forall a d', P d' -> holds P (f a) d') ->
    holds P (bind t f) d.
Proof.
  induction t as [a|k IH|d' k IH|c k IH]; simpl; intros d Hd Ht Hf.
  - apply Hf. exact Hd.
  - apply IH; auto.
  - destruct Ht as [Hd' Hk]. split; [exact Hd'|]. apply IH; auto.
  - intros x d' Hd'. apply IH; auto.
Qed.

Lemma holds_bindE {A B : Type} (P : RpcDevice -> Prop) (m : co (exn + A))
  (f : A -> co (exn + B)) d :
  P d -> holds P m d ->
  (forall a d', P d' -> holds P (f a) d') ->
  holds P (bindE m f) d.
Proof.
  intros Hd Hm Hf. unfold bindE. apply holds_bind; auto.
  intros [e|a] d' Hd'; [exact I|auto].
Qed.

Lemma holds_try_except {A : Type} (P : RpcDevice -> Prop) (m : co (exn + A))
  (h : exn -> co (exn + A)) d :
  P d -> holds P m d ->
  (forall e d', P d' -> holds P (h e) d') ->
  holds P (try_except m h) d.
Proof.
  intros Hd Hm Hh. unfold try_except. apply holds_bind; auto.
  intros [e|a] d' Hd'; [auto|exact I].
Qed.

Section Holds.
Context {W : Type}.
Variable respond : forall c : call, W -> W * ans c.
Variable interfere : W -> RpcDevice -> RpcDevice.
Variable P : RpcDevice -> Prop.
Hypothesis interfere_keeps : forall w d, P d -> P (interfere w d).

Lemma holds_run {A : Type} (t : co A) :
  forall w d,
    P d -> holds P t d -> P (self_of (run respond interfere t w d)).
Proof.
  induction t as [a|k IH|d' k IH|c k IH]; simpl; intros w d Hd Ht.
  - exact Hd.
  - apply IH; auto.
  - destruct Ht as [Hd' Hk]. apply IH; auto.
  - apply IH.
    + destruct (suspends c); auto.
    + apply Ht. destruct (suspends c); auto.
Qed.
End Holds.

Ltac holds_step :=
  repeat first
    [ progress (simpl; intros)
    | apply holds_bindE
    | apply holds_try_except
    | apply holds_bind
    | split
    | assumption
    | match goal with
      | |- holds _ (match ?x with _ => _ end) _ => destruct x
      | |- holds _ (if ?x then _ else _) _ => destruct x
      end
    | exact I
    | reflexivity ].

Lemma call_rpc_uninitialized method params d :
  uninitialized d -> holds uninitialized (call_rpc method params) d.
Proof.
  unfold uninitialized, call_rpc, await_call, modify, raise. holds_step.
Qed.

Lemma disconnect_uninitialized d :
  uninitialized d -> holds uninitialized _disconnect_websocket d.
Proof.
  unfold uninitialized, _disconnect_websocket, get_self, perform, modify,
    await_disconnect, ret. holds_step.
Qed.

Lemma try_steps_uninitialized async_init d :
  uninitialized d ->
  holds uninitialized
        (let* _ := probe_and_authenticate in
         with_timeout (let* _ := connect_and_configure in
                       fetch_status_step async_init)) d.
Proof.
  unfold probe_and_authenticate, with_timeout, connect_and_configure,
    fetch_status_step, update_status, update_config, update_profiles,
    get_self, await_get_info, await_connect, modify, prop, perform, ret, raise.
  intros H. holds_step; try (apply call_rpc_uninitialized; assumption).
Qed.

Lemma except_uninitialized e d :
  uninitialized d -> holds uninitialized (initialize_except false e) d.
Proof.
  unfold initialize_except, modify, raise. intros H.
  holds_step; try (apply disconnect_uninitialized; assumption).
Qed.

Section Wp.
Context {W : Type}.
Variable respond : forall c : call, W -> W * ans c.
Variable interfere : W -> RpcDevice -> RpcDevice.
Variable R : RpcDevice -> RpcDevice -> Prop.
Hypothesis interfere_rely : forall w d, R d (interfere w d).

Lemma wp_run {A : Type} (t : co A) (Q : A -> RpcDevice -> Prop) :
  forall w d,
    wp R t Q d ->
    Q (result_of (run respond interfere t w d))
      (self_of (run respond interfere t w d)).
Proof.
  induction t as [a|k IH|d' k IH|c k IH]; simpl; intros w d Ht.
  - exact Ht.
  - apply IH. exact Ht.
  - apply IH. exact Ht.
  - apply IH. apply Ht. destruct (suspends c); [apply interfere_rely|reflexivity].
Qed.
End Wp.

Ltac wp_step :=
  repeat first
    [ progress (cbn [wp bind bindE try_except try_finally suspends]; intros)
    | match goal with
      | |- context [match ?x with _ => _ end] => destruct x eqn:?
      | |- context [if ?x then _ else _] => destruct x eqn:?
      end ].

(** ** [initialize] *)

Lemma probe_uninitialized d :
  uninitialized d -> holds uninitialized probe_and_authenticate d.
Proof.
  unfold uninitialized, probe_and_authenticate,
    get_self, await_get_info, modify, prop, perform, ret, raise.
  intros H. holds_step.
Qed.

Lemma timed_steps_uninitialized async_init d :
  uninitialized d ->
  holds uninitialized
        (with_timeout (let* _ := connect_and_configure in
                       fetch_status_step async_init)) d.
Proof.
  unfold with_timeout, connect_and_configure,
    fetch_status_step, update_status, update_config, update_profiles,
    get_self, await_connect, modify, prop, ret, raise.
  intros H. holds_step; try (apply call_rpc_uninitialized; assumption).
Qed.

Section Eager.
Context {W : Type}.
Variable respond : forall c : call, W -> W * ans c.
Variable interfere : W -> RpcDevice -> RpcDevice.

Lemma initialize_except_eager_raises e w d :
  exists e', result_of (run respond interfere (initialize_except false e) w d)
             = inl e'.
Proof.
  unfold initialize_except.
  destruct (bool_decide (e = InvalidAuthError));
    [|destruct (bool_decide (e = MacAddressMismatchError));
      [|destruct (is_connect_error e || bool_decide (e = RpcCallError))]];
    cbn [negb]; rewrite ?run_modify_bind, ?run_bindE;
    try (destruct (run respond interfere _disconnect_websocket _ _)
           as [w' d' [e'|[]] tr];
         cbn [result_of after run raise]; eauto);
    cbn [run raise result_of]; eauto.
Qed.

Lemma initialize_try_outcome (async_init : bool) w d :
  (forall w' d', uninitialized d' -> uninitialized (interfere w' d')) ->
  uninitialized d ->
  let o := run respond interfere (initialize_try async_init) w d in
  match result_of o with
  | inr _ => initialized (self_of o) = true
  | inl _ => initialized (self_of o) = false
  end.
Proof.
  intros Hint Hd. cbv zeta. unfold initialize_try. rewrite run_bindE.
  pose proof (holds_run respond interfere uninitialized Hint _ w d Hd
                (probe_uninitialized d Hd)) as H1.
  destruct (run respond interfere probe_and_authenticate w d)
    as [w1 d1 [e|[]] tr1]; cbn [result_of self_of world_of] in *;
    [exact H1|].
  rewrite run_bindE.
  pose proof (holds_run respond interfere uninitialized Hint _ w1 d1 H1
                (timed_steps_uninitialized async_init d1 H1)) as H2.
  destruct (run respond interfere (with_timeout _) w1 d1)
    as [w2 d2 [e|[]] tr2]; cbn [result_of self_of world_of after] in *;
    [exact H2|].
  reflexivity.
Qed.

End Eager.

(** X12.  After [initialize()] (not lazy), [initialized] is set exactly
    when the call returned normally: every failure leaves the
    controller not initialized, as long as no other code sets the flag
    meanwhile. *)
Theorem eager_initialize_initialized_iff_returns {W : Type}
  (respond : forall c : call, W -> W * ans c)
  (interfere : W -> RpcDevice -> RpcDevice) (w : W) (d : RpcDevice) :
  (forall w' d', initialized d' = false ->
                 initialized (interfere w' d') = false) ->
  _initializing d = false ->
  let o := run respond interfere (initialize false) w d in
  initialized (self_of o) = true <-> result_of o = inr tt.
Proof.
  intros Hint Hflag. cbv zeta.
  rewrite run_initialize by exact Hflag. cbv zeta.
  unfold guarded. rewrite run_try_except.
  pose proof (initialize_try_outcome respond interfere false w (entered d)
                Hint eq_refl) as Htry.
  cbv zeta in Htry.
  destruct (run respond interfere (initialize_try false) w (entered d))
    as [w1 d1 [e|[]] tr1]; cbn [result_of self_of world_of] in *.
  - pose proof (holds_run respond interfere uninitialized Hint _ w1 d1 Htry
                  (except_uninitialized e d1 Htry)) as Hh.
    destruct (initialize_except_eager_raises respond interfere e w1 d1)
      as [e' He'].
    destruct (run respond interfere (initialize_except false e) w1 d1)
      as [w2 d2 r2 tr2]; cbn [result_of self_of world_of after] in *.
    subst r2. cbn [result_of self_of]. unfold uninitialized in Hh.
    simpl. rewrite Hh. split; discriminate.
  - rewrite run_notify_listener.
    destruct (_update_listener (set_initializing false d1));
      [destruct (initialized (set_initializing false d1))|];
      cbn [after result_of self_of]; simpl; rewrite Htry; split; reflexivity.
Qed.

Lemma eager_initialize_initialized_iff_returns_witness :
  initialized (self_of (run (respond_ok open_info) quiet (initialize false) tt
                          (init_device some_options)))
  = true.
Proof.
  apply (proj2 (eager_initialize_initialized_iff_returns
                  (respond_ok open_info) quiet tt (init_device some_options)
                  (fun _ _ H => H) eq_refl)).
  vm_compute. reflexivity.
Defined.

Lemma call_rpc_has_config method params d :
  has_config d -> holds has_config (call_rpc method params) d.
Proof.
  unfold has_config, call_rpc, await_call, modify, raise. holds_step.
Qed.

Lemma update_profiles_has_config d :
  has_config d -> holds has_config update_profiles d.
Proof.
  unfold has_config, update_profiles, prop, modify, ret, raise. intros H.
  holds_step; try (apply call_rpc_has_config; assumption).
Qed.

Section Caches.
Context {W : Type}.
Variable respond : forall c : call, W -> W * ans c.
Variable interfere : W -> RpcDevice -> RpcDevice.
Hypothesis interfere_keeps_config :
  forall w d, _config d <> None -> _config (interfere w d) <> None.

Lemma update_config_returns w d :
  let o := run respond interfere update_config w d in
  result_of o = inr tt -> _config (self_of o) <> None.
Proof.
  cbv zeta. unfold update_config. rewrite run_bindE, run_call_rpc. cbv zeta.
  destruct (respond (WsCall "Shelly.GetConfig" None) w) as [w2 [e|r]];
    cbn [fst snd].
  { destruct (bool_decide (e = InvalidAuthError \/ e = RpcCallError));
      [|destruct (is_connect_error e)]; cbn [result_of after]; discriminate. }
  cbn [result_of world_of self_of trace_of after run modify ret].
  intros _. simpl. discriminate.
Qed.

Lemma connect_configures w d :
  let o := run respond interfere connect_and_configure w d in
  result_of o = inr tt -> _config (self_of o) <> None.
Proof.
  cbv zeta. unfold connect_and_configure, await_connect.
  rewrite run_bindE. cbn [run].
  destruct (respond WsConnect w) as [w1 [e|[]]];
    cbn [logged result_of self_of world_of trace_of fst snd suspends];
    [discriminate|].
  rewrite run_bindE.
  pose proof (update_config_returns w1 (interfere w1 d)) as Hcfg.
  cbv zeta in Hcfg.
  destruct (run respond interfere update_config w1 (interfere w1 d))
    as [w2 d2 [e|[]] tr2]; cbn [result_of self_of world_of after] in *;
    [discriminate|].
  specialize (Hcfg eq_refl). intros _.
  pose proof (holds_run respond interfere has_config interfere_keeps_config
                _ w2 _ Hcfg (update_profiles_has_config _ Hcfg)) as Hp.
  destruct (run respond interfere update_profiles w2 d2) as [w3 d3 r3 tr3].
  exact Hp.
Qed.

Lemma eager_try_caches w d :
  let o := run respond interfere (initialize_try false) w d in
  result_of o = inr tt ->
  initialized (self_of o) = true /\
  _status (self_of o) <> None /\ _config (self_of o) <> None.
Proof.
  cbv zeta. unfold initialize_try. rewrite run_bindE.
  destruct (run respond interfere probe_and_authenticate w d)
    as [w1 d1 [e|[]] tr1]; cbn [result_of self_of world_of];
    [discriminate|].
  rewrite run_bindE, run_with_timeout. cbv zeta. rewrite run_bindE.
  pose proof (connect_configures w1 d1) as Hconn. cbv zeta in Hconn.
  destruct (run respond interfere connect_and_configure w1 d1)
    as [w2 d2 [e|[]] tr2]; cbn [result_of self_of world_of after] in *;
    [discriminate|].
  specialize (Hconn eq_refl).
  rewrite run_fetch_status_step. cbn [negb orb].
  unfold update_status. rewrite run_bindE, run_call_rpc. cbv zeta.
  destruct (respond (WsCall "Shelly.GetStatus" None) w2) as [w3 [e|r]];
    cbn [fst snd].
  { destruct (bool_decide (e = InvalidAuthError \/ e = RpcCallError));
      [|destruct (is_connect_error e)]; cbn [result_of after]; discriminate. }
  cbn [result_of world_of self_of trace_of after run modify ret].
  intros _. simpl. repeat split; [discriminate|].
  apply interfere_keeps_config. exact Hconn.
Qed.

End Caches.

(** X13.  When [initialize()] (not lazy) returns normally, [status] and
    [config] can be read: both return a dictionary, as long as no other
    code drops the configuration meanwhile. *)
Theorem eager_initialize_caches {W : Type}
  (respond : forall c : call, W -> W * ans c)
  (interfere : W -> RpcDevice -> RpcDevice) (w : W) (d : RpcDevice) :
  (forall w' d', _config d' <> None -> _config (interfere w' d') <> None) ->
  _initializing d = false ->
  let o := run respond interfere (initialize false) w d in
  result_of o = inr tt ->
  exists st cf, status (self_of o) = inr st /\ config (self_of o) = inr cf.
Proof.
  intros Hint Hflag. cbv zeta.
  rewrite run_initialize by exact Hflag. cbv zeta.
  unfold guarded. rewrite run_try_except.
  pose proof (eager_try_caches respond interfere Hint w (entered d)) as Htry.
  cbv zeta in Htry.
  destruct (run respond interfere (initialize_try false) w (entered d))
    as [w1 d1 [e|[]] tr1]; cbn [result_of self_of world_of] in *.
  - destruct (initialize_except_eager_raises respond interfere e w1 d1)
      as [e' He'].
    destruct (run respond interfere (initialize_except false e) w1 d1)
      as [w2 d2 r2 tr2]; cbn [result_of self_of world_of after] in *.
    subst r2. cbn [result_of]. discriminate.
  - destruct (Htry eq_refl) as (Hi & Hs & Hc).
    rewrite run_notify_listener. intros _.
    assert (exists st cf, status (set_initializing false d1) = inr st /\
                          config (set_initializing false d1) = inr cf) as Hacc.
    { unfold status, config. simpl. rewrite Hi. simpl.
      destruct (_status d1) as [st|]; [|contradiction].
      destruct (_config d1) as [cf|]; [|contradiction].
      eauto. }
    destruct (_update_listener (set_initializing false d1));
      [destruct (initialized (set_initializing false d1))|];
      cbn [after self_of]; exact Hacc.
Qed.

Lemma eager_initialize_caches_witness :
  exists st cf,
    status (self_of (run (respond_ok open_info) quiet (initialize false) tt
                       (init_device some_options))) = inr st /\
    config (self_of (run (respond_ok open_info) quiet (initialize false) tt
                       (init_device some_options))) = inr cf.
Proof.
  apply (eager_initialize_caches (respond_ok open_info) quiet tt
           (init_device some_options) (fun _ _ H => H) eq_refl).
  vm_compute. reflexivity.
Defined.

Section Lazy.
Context {W : Type}.
Variable respond : forall c : call, W -> W * ans c.
Variable interfere : W -> RpcDevice -> RpcDevice.

Lemma run_initialize_except_lazy e w d :
  run respond interfere (initialize_except true e) w d =
    if bool_decide (e = InvalidAuthError) then
      mkOutcome w (set_initialized true
                     (set_last_error (Some InvalidAuthError) d)) (inr tt) []
    else if bool_decide (e = MacAddressMismatchError) then
      mkOutcome w (set_last_error (Some e) d) (inr tt) []
    else if is_connect_error e || bool_decide (e = RpcCallError) then
      mkOutcome w (set_last_error (Some DeviceConnectionError) d) (inr tt) []
    else mkOutcome w d (inl e) [].
Proof.
  unfold initialize_except.
  destruct (bool_decide (e = InvalidAuthError)); [reflexivity|].
  destruct (bool_decide (e = MacAddressMismatchError)); [reflexivity|].
  destruct (is_connect_error e || bool_decide (e = RpcCallError));
    reflexivity.
Qed.

Lemma run_disconnect_websocket w d :
  run respond interfere _disconnect_websocket w d =
    let w1 := if _unsub_ws d then fst (respond UnsubWs w) else w in
    let d1 := if _unsub_ws d then set_unsub_ws false d else d in
    let wx := respond WsDisconnect w1 in
    mkOutcome (fst wx) (interfere (fst wx) d1) (snd wx)
              ((if _unsub_ws d then [(UnsubWs, d)] else [])
                 ++ [(WsDisconnect, d1)]).
Proof.
  unfold _disconnect_websocket. rewrite run_get_self_bind.
  destruct (_unsub_ws d); reflexivity.
Qed.

End Lazy.

(** X14.  A lazy [initialize] never raises an error of the classes its
    [except] clauses name.  When its [try] block raises one, the call
    returns normally and keeps the error in [_last_error]: the error
    itself for [InvalidAuthError] and [MacAddressMismatchError], a
    [DeviceConnectionError] for the others. *)
Theorem lazy_initialize_swallows {W : Type}
  (respond : forall c : call, W -> W * ans c)
  (interfere : W -> RpcDevice -> RpcDevice) (w : W) (d : RpcDevice) :
  let o := run respond interfere (initialize true) w d in
  (forall e, result_of o = inl e ->
             e ∉ [InvalidAuthError; MacAddressMismatchError; ClientError;
                  TimeoutError; DeviceConnectionError; OSError;
                  RpcCallError]) /\
  (_initializing d = false ->
   forall e,
     result_of (run respond interfere (initialize_try true) w (entered d))
     = inl e ->
     e ∈ [InvalidAuthError; MacAddressMismatchError; ClientError;
          TimeoutError; DeviceConnectionError; OSError; RpcCallError] ->
     result_of o = inr tt /\
     _last_error (self_of o)
     = Some (if bool_decide (e = InvalidAuthError \/
                             e = MacAddressMismatchError)
             then e else DeviceConnectionError)).
Proof.
  cbv zeta. destruct (_initializing d) eqn:Hflag.
  { rewrite run_initialize_rejected by exact Hflag. cbn [result_of].
    split; [|discriminate].
    intros e He. injection He as <-. vm_compute. intros H.
    repeat (apply elem_of_cons in H as [H|H]; [discriminate|]).
    apply elem_of_nil in H. exact H. }
  rewrite run_initialize by exact Hflag. cbv zeta.
  unfold guarded. rewrite run_try_except.
  destruct (run respond interfere (initialize_try true) w (entered d))
    as [w1 d1 [e0|[]] tr1]; cbn [result_of self_of world_of].
  - rewrite run_initialize_except_lazy. split.
    + intros e.
      destruct e0; vm_compute bool_decide; cbv iota;
        unfold is_connect_error;
        repeat match goal with
               | |- context [if ?b then _ else _] =>
                   let v := eval vm_compute in b in change b with v; cbv iota
               end;
        cbn [after result_of world_of self_of trace_of];
        rewrite ?run_notify_listener;
        repeat match goal with
               | |- context [match ?x with _ => _ end] => destruct x
               end;
        cbn [after result_of]; intros He; try discriminate;
        injection He as <-;
        intros H;
        repeat (apply elem_of_cons in H as [H|H]; [discriminate|]);
        apply elem_of_nil in H; exact H.
    + intros _ e He Hin. injection He as <-.
      repeat (apply elem_of_cons in Hin as [->|Hin]);
        [..|apply elem_of_nil in Hin; contradiction];
        repeat match goal with
               | |- context [if ?b then _ else _] =>
                   let v := eval vm_compute in b in change b with v; cbv iota
               end;
        cbn [after result_of world_of self_of trace_of];
        rewrite run_notify_listener;
        repeat match goal with
               | |- context [match ?x with _ => _ end] => destruct x
               end;
        cbn [after result_of self_of]; split; reflexivity.
  - split.
    + rewrite run_notify_listener.
      destruct (_update_listener _); [destruct (initialized _)|];
        cbn [after result_of]; intros e He; discriminate.
    + intros _ e He. discriminate.
Qed.

Lemma lazy_initialize_swallows_witness :
  let o := run (respond_unreachable open_info) quiet (initialize true) tt
               (init_device some_options) in
  result_of o = inr tt /\
  _last_error (self_of o) = Some DeviceConnectionError.
Proof.
  apply (proj2 (lazy_initialize_swallows (respond_unreachable open_info) quiet
                  tt (init_device some_options)) eq_refl OSError).
  - vm_compute. reflexivity.
  - repeat constructor.
Defined.

Ltac decide_ifs :=
  repeat match goal with
         | |- context [if ?b then _ else _] =>
             let v := eval vm_compute in b in
             match v with
             | true => change b with true
             | false => change b with false
             end; cbv iota
         end.

Ltac not_in_list H :=
  repeat (apply elem_of_cons in H as [H|H]; [discriminate|]);
  apply elem_of_nil in H; exact H.

(** X15.  Provided that disconnecting does not fail, [initialize()] (not
    lazy) never raises [aiohttp.ClientError], [asyncio.TimeoutError],
    [OSError] or [RpcCallError]: the caller sees those as
    [DeviceConnectionError]. *)
Theorem eager_initialize_error_classes {W : Type}
  (respond : forall c : call, W -> W * ans c)
  (interfere : W -> RpcDevice -> RpcDevice) (w : W) (d : RpcDevice) :
  (forall w', snd (respond WsDisconnect w') = inr tt) ->
  forall e, result_of (run respond interfere (initialize false) w d) = inl e ->
            e ∉ [ClientError; TimeoutError; OSError; RpcCallError].
Proof.
  intros Hdisc. destruct (_initializing d) eqn:Hflag.
  { rewrite run_initialize_rejected by exact Hflag. cbn [result_of].
    intros e He. injection He as <-. intros H. not_in_list H. }
  rewrite run_initialize by exact Hflag. cbv zeta.
  unfold guarded. rewrite run_try_except.
  destruct (run respond interfere (initialize_try false) w (entered d))
    as [w1 d1 [e0|[]] tr1]; cbn [result_of self_of world_of].
  - intros e.
    destruct e0; unfold initialize_except; decide_ifs;
      rewrite ?run_modify_bind, ?run_bindE, ?run_disconnect_websocket;
      cbv zeta; rewrite ?Hdisc;
      cbn [after result_of world_of self_of trace_of run raise];
      intros He; injection He as <-; intros H; not_in_list H.
  - rewrite run_notify_listener.
    destruct (_update_listener _); [destruct (initialized _)|];
      cbn [after result_of]; intros e He; discriminate.
Qed.

Lemma eager_initialize_error_classes_witness :
  result_of (run (respond_unreachable open_info) quiet (initialize false) tt
               (init_device some_options))
  = inl DeviceConnectionError /\
  DeviceConnectionError ∉ [ClientError; TimeoutError; OSError; RpcCallError].
Proof.
  split.
  - vm_compute. reflexivity.
  - apply (eager_initialize_error_classes (respond_unreachable open_info)
             quiet tt (init_device some_options)).
    + intros w'. reflexivity.
    + vm_compute. reflexivity.
Defined.

(** X16.  When [initialize()] (not lazy) raises [InvalidAuthError],
    [MacAddressMismatchError] or [DeviceConnectionError], the last thing
    it did was to disconnect the transport. *)
Theorem eager_initialize_failure_disconnects {W : Type}
  (respond : forall c : call, W -> W * ans c)
  (interfere : W -> RpcDevice -> RpcDevice) (w : W) (d : RpcDevice)
  (e : exn) :
  _initializing d = false ->
  result_of (run respond interfere (initialize false) w d) = inl e ->
  e ∈ [InvalidAuthError; MacAddressMismatchError; DeviceConnectionError] ->
  last (calls_of (run respond interfere (initialize false) w d))
  = Some WsDisconnect.
Proof.
  intros Hflag. rewrite run_initialize by exact Hflag. cbv zeta.
  unfold guarded. rewrite run_try_except.
  destruct (run respond interfere (initialize_try false) w (entered d))
    as [w1 d1 [e0|[]] tr1]; cbn [result_of self_of world_of].
  - destruct e0; unfold initialize_except; decide_ifs;
      rewrite ?run_modify_bind, ?run_bindE, ?run_disconnect_websocket;
      cbv zeta;
      match goal with
      | |- context [snd (respond WsDisconnect ?w')] =>
          destruct (respond WsDisconnect w') as [w2 [e2|[]]]
      | _ => idtac
      end;
      cbn [after result_of world_of self_of trace_of run raise fst snd
           calls_of];
      intros He Hin;
      try (injection He as <-; exfalso; not_in_list Hin);
      unfold calls_of; cbn [trace_of];
      rewrite ?app_nil_r, !map_app, ?app_assoc; apply last_snoc.
  - rewrite run_notify_listener.
    destruct (_update_listener _); [destruct (initialized _)|];
      cbn [after result_of]; intros He; discriminate.
Qed.

Lemma eager_initialize_failure_disconnects_witness :
  last (calls_of (run (respond_auth_rejected open_info) quiet
                    (initialize false) tt (init_device some_options)))
  = Some WsDisconnect.
Proof.
  apply (eager_initialize_failure_disconnects (respond_auth_rejected open_info)
           quiet tt (init_device some_options) InvalidAuthError).
  - reflexivity.
  - vm_compute. reflexivity.
  - repeat constructor.
Defined.

Lemma async_init_no_unsub :
  only (fun c => is_unsub c = false) _async_init.
Proof.
  unfold _async_init, initialize, try_finally, initialize_finally,
    initialize_try, initialize_except, notify_listener,
    probe_and_authenticate, with_timeout, connect_and_configure,
    fetch_status_step, update_status, update_config, update_profiles,
    get_self, await_get_info, await_connect, await_disconnect,
    modify, prop, perform, ret, raise.
  footprint; try (apply call_rpc_only; reflexivity).
Qed.

(** X17.  [_async_init] never calls the unsubscribe function, whatever
    happens during the lazy initialization, and when it returns
    normally its last call was to disconnect the transport. *)
Theorem async_init_keeps_subscription {W : Type}
  (respond : forall c : call, W -> W * ans c)
  (interfere : W -> RpcDevice -> RpcDevice) (w : W) (d : RpcDevice) :
  let o := run respond interfere _async_init w d in
  Forall (fun c => is_unsub c = false) (calls_of o) /\
  (result_of o = inr tt -> last (calls_of o) = Some WsDisconnect).
Proof.
  cbv zeta. split.
  - unfold calls_of. apply Forall_map.
    apply (only_run respond interfere _ _ async_init_no_unsub).
  - unfold _async_init. rewrite run_bindE.
    destruct (run respond interfere (initialize true) w d)
      as [w1 d1 [e|[]] tr1]; cbn [result_of self_of world_of];
      [discriminate|].
    intros _. unfold calls_of, after, await_disconnect.
    cbn [run logged trace_of]. rewrite map_app. apply last_snoc.
Qed.

Lemma async_init_keeps_subscription_witness :
  last (calls_of (run (respond_ok open_info) quiet _async_init tt
                    (init_device some_options)))
  = Some WsDisconnect.
Proof.
  apply (proj2 (async_init_keeps_subscription (respond_ok open_info) quiet tt
                  (init_device some_options))).
  vm_compute. reflexivity.
Defined.

Section Probe.
Context {W : Type}.
Variable respond : forall c : call, W -> W * ans c.
Variable interfere : W -> RpcDevice -> RpcDevice.

Lemma run_probe_and_authenticate w d :
  run respond interfere probe_and_authenticate w d =
    let c := GetInfo (ip_address (options d)) (device_mac (options d)) in
    let wx := respond c w in
    let d0 := interfere (fst wx) d in
    match snd wx with
    | inl e => mkOutcome (fst wx) d0 (inl e) [(c, d)]
    | inr info =>
        let d1 := set_shelly (Some info) d0 in
        match info !! "auth_en" with
        | None => mkOutcome (fst wx) d1 (inl WrongShellyGen) [(c, d)]
        | Some v =>
            if truthy v then
              match username (options d1), password (options d1) with
              | Some user, Some pass =>
                  match info !! "auth_domain" with
                  | None => mkOutcome (fst wx) d1 (inl KeyError) [(c, d)]
                  | Some domain =>
                      mkOutcome
                        (fst (respond (WsSetAuthData domain user pass) (fst wx)))
                        d1 (inr tt)
                        [(c, d); (WsSetAuthData domain user pass, d1)]
                  end
              | _, _ => mkOutcome (fst wx) d1 (inl InvalidAuthError) [(c, d)]
              end
            else mkOutcome (fst wx) d1 (inr tt) [(c, d)]
        end
    end.
Proof.
  unfold probe_and_authenticate. rewrite run_get_self_bind.
  unfold await_get_info, prop, requires_auth, shelly, get_self, perform.
  cbn [bindE bind run modify ret raise]. cbv zeta.
  destruct (respond (GetInfo (ip_address (options d)) (device_mac (options d))) w)
    as [w1 [e|info]]; cbn [fst snd suspends logged run]; [reflexivity|].
  cbn [_shelly set_shelly options].
  destruct (info !! "auth_en") as [v|]; [|reflexivity].
  destruct (truthy v); cbn [run bind]; [|reflexivity].
  cbn [_shelly set_shelly options].
  destruct (username (options (interfere w1 d))) as [user|]; [|reflexivity].
  destruct (password (options (interfere w1 d))) as [pass|]; [|reflexivity].
  cbn [bindE bind run ret raise _shelly set_shelly].
  destruct (info !! "auth_domain"); reflexivity.
Qed.

End Probe.

(** X18.  When the answer to the probe has no ["auth_en"] key,
    [initialize], lazy or not, raises [WrongShellyGen] after that one
    call: the transport is not touched, the identity stays cached and
    [_initializing] is down again. *)
Theorem initialize_wrong_generation {W : Type}
  (respond : forall c : call, W -> W * ans c)
  (interfere : W -> RpcDevice -> RpcDevice)
  (async_init : bool) (w : W) (d : RpcDevice) (info : dict) :
  _initializing d = false ->
  snd (respond (GetInfo (ip_address (options d)) (device_mac (options d))) w)
  = inr info ->
  info !! "auth_en" = None ->
  let o := run respond interfere (initialize async_init) w d in
  result_of o = inl WrongShellyGen /\
  calls_of o = [GetInfo (ip_address (options d)) (device_mac (options d))] /\
  _shelly (self_of o) = Some info /\
  _initializing (self_of o) = false.
Proof.
  intros Hflag Hans Hgen. cbv zeta.
  rewrite run_initialize by exact Hflag. cbv zeta.
  unfold guarded. rewrite run_try_except.
  unfold initialize_try. rewrite run_bindE, run_probe_and_authenticate.
  cbv zeta. cbn [options entered set_initialized set_initializing].
  destruct (respond (GetInfo (ip_address (options d)) (device_mac (options d))) w)
    as [w1 a]. cbn [fst snd] in *. subst a. rewrite Hgen.
  cbn [result_of world_of self_of trace_of].
  change (initialize_except async_init WrongShellyGen)
    with (raise WrongShellyGen : co (exn + unit)).
  cbn [run raise after result_of world_of self_of trace_of calls_of].
  repeat split.
Qed.

Lemma initialize_wrong_generation_witness :
  let o := run (respond_ok ∅) quiet (initialize true) tt
               (init_device some_options) in
  result_of o = inl WrongShellyGen /\
  calls_of o = [GetInfo "192.168.1.2" None] /\
  _shelly (self_of o) = Some ∅ /\
  _initializing (self_of o) = false.
Proof.
  apply (initialize_wrong_generation (respond_ok ∅) quiet true tt
           (init_device some_options) ∅).
  - reflexivity.
  - reflexivity.
  - reflexivity.
Defined.

Lemma initialize_except_closed async_init e :
  only (fun c => opens_transport c = false) (initialize_except async_init e).
Proof.
  unfold initialize_except, _disconnect_websocket, get_self, perform, modify,
    await_disconnect, ret, raise.
  footprint.
Qed.

(** X19.  When the device asks for credentials and the options lack the
    user name or the password, [initialize] makes no call that sets up
    or uses the connection.  A lazy call then returns normally, with
    [initialized] set and [InvalidAuthError] as the last error; a call
    that is not lazy raises. *)
Theorem initialize_missing_credentials {W : Type}
  (respond : forall c : call, W -> W * ans c)
  (interfere : W -> RpcDevice -> RpcDevice)
  (async_init : bool) (w : W) (d : RpcDevice) (info : dict) (auth_en : value) :
  (forall w' d', options (interfere w' d') = options d') ->
  _initializing d = false ->
  snd (respond (GetInfo (ip_address (options d)) (device_mac (options d))) w)
  = inr info ->
  info !! "auth_en" = Some auth_en ->
  truthy auth_en = true ->
  username (options d) = None \/ password (options d) = None ->
  let o := run respond interfere (initialize async_init) w d in
  Forall (fun c => opens_transport c = false) (calls_of o) /\
  (if async_init
   then result_of o = inr tt /\ initialized (self_of o) = true /\
        _last_error (self_of o) = Some InvalidAuthError
   else exists e, result_of o = inl e).
Proof.
  intros Hopt Hflag Hans Hen Htr Hcred. cbv zeta.
  assert (run respond interfere (initialize_try async_init) w (entered d)
          = mkOutcome
              (fst (respond (GetInfo (ip_address (options d))
                                     (device_mac (options d))) w))
              (set_shelly (Some info)
                 (interfere
                    (fst (respond (GetInfo (ip_address (options d))
                                           (device_mac (options d))) w))
                    (entered d)))
              (inl InvalidAuthError)
              [(GetInfo (ip_address (options d)) (device_mac (options d)),
                entered d)]) as Htry.
  { unfold initialize_try. rewrite run_bindE, run_probe_and_authenticate.
    cbv zeta. cbn [options entered set_initialized set_initializing].
    destruct (respond (GetInfo (ip_address (options d))
                               (device_mac (options d))) w) as [w1 a].
    cbn [fst snd] in *. subst a. rewrite Hen, Htr.
    cbn [options set_shelly]. rewrite Hopt.
    cbn [options entered set_initialized set_initializing].
    destruct Hcred as [-> | Hp].
    - reflexivity.
    - rewrite Hp. destruct (username (options d)); reflexivity. }
  split.
  - rewrite run_initialize by exact Hflag. cbv zeta.
    unfold guarded. rewrite run_try_except, Htry.
    cbn [result_of world_of self_of trace_of].
    pose proof (only_run respond interfere _ _
                  (initialize_except_closed async_init InvalidAuthError)) as Hx.
    match goal with
    | |- context [run respond interfere (initialize_except _ _) ?w1 ?d1] =>
        specialize (Hx w1 d1);
        destruct (run respond interfere (initialize_except async_init
                                           InvalidAuthError) w1 d1)
          as [w2 d2 [e|[]] tr2]
    end; cbn [after result_of world_of self_of trace_of] in *.
    + unfold calls_of. cbn [trace_of map fst]. constructor; [reflexivity|].
      apply Forall_map. exact Hx.
    + rewrite run_notify_listener.
      destruct (_update_listener _); [destruct (initialized _)|];
        unfold calls_of, after; cbn [trace_of map fst]; rewrite ?map_app;
        constructor; try reflexivity;
        rewrite ?Forall_app; repeat split;
        try (apply Forall_map; exact Hx);
        repeat constructor.
  - destruct async_init.
    + destruct (lazy_auth_failure_deferred respond interfere w d Hflag)
        as (Hr & Hi & Hl & _).
      { rewrite Htry. reflexivity. }
      auto.
    + rewrite run_initialize by exact Hflag. cbv zeta.
      unfold guarded. rewrite run_try_except, Htry.
      cbn [result_of world_of self_of trace_of].
      match goal with
      | |- context [run respond interfere (initialize_except _ ?e) ?w1 ?d1] =>
          destruct (initialize_except_eager_raises respond interfere e w1 d1)
            as [e' He'];
          destruct (run respond interfere (initialize_except false e) w1 d1)
            as [w2 d2 r2 tr2]
      end.
      cbn [result_of after] in *. subst r2. cbn [result_of]. eauto.
Qed.

Lemma initialize_missing_credentials_witness :
  let o := run (respond_ok locked_info) quiet (initialize true) tt
               (init_device some_options) in
  Forall (fun c => opens_transport c = false) (calls_of o) /\
  (result_of o = inr tt /\ initialized (self_of o) = true /\
   _last_error (self_of o) = Some InvalidAuthError).
Proof.
  apply (initialize_missing_credentials (respond_ok locked_info) quiet true tt
           (init_device some_options) locked_info (VBool true)).
  - intros w' d'. reflexivity.
  - reflexivity.
  - reflexivity.
  - vm_compute. reflexivity.
  - reflexivity.
  - left. reflexivity.
Defined.

Lemma eager_initialize_wp (x : option exn) d :
  _last_error d = x ->
  wp same_last_error (initialize false)
     (fun r d' => r = inr tt -> _last_error d' = x) d.
Proof.
  intros Hx.
  unfold initialize, try_finally, initialize_finally,
    initialize_try, initialize_except, notify_listener,
    probe_and_authenticate, with_timeout, connect_and_configure,
    fetch_status_step, update_status, update_config, update_profiles,
    _disconnect_websocket, call_rpc, await_call,
    get_self, await_get_info, await_connect, await_disconnect,
    modify, prop, perform, ret, raise.
  wp_step.
  all: try discriminate.
  all: unfold same_last_error in *;
    repeat match goal with
           | H : ?v = _ |- _ => is_var v; subst v
           end;
    cbn [_last_error set_shelly set_status set_config set_profiles
         set_initialized set_initializing set_update_listener set_unsub_ws
         set_last_error] in *;
    congruence.
Qed.

(** X20.  [initialize] never clears [_last_error]: after a call (not
    lazy) that returns normally, the last error is the one that was
    there before, as long as no other code writes it meanwhile. *)
Theorem eager_initialize_keeps_last_error {W : Type}
  (respond : forall c : call, W -> W * ans c)
  (interfere : W -> RpcDevice -> RpcDevice) (w : W) (d : RpcDevice) :
  (forall w' d', _last_error (interfere w' d') = _last_error d') ->
  let o := run respond interfere (initialize false) w d in
  result_of o = inr tt ->
  _last_error (self_of o) = _last_error d.
Proof.
  intros Hint. cbv zeta.
  apply (wp_run respond interfere same_last_error Hint (initialize false)
           (fun r d' => r = inr tt -> _last_error d' = _last_error d)).
  apply eager_initialize_wp. reflexivity.
Qed.

Lemma eager_initialize_keeps_last_error_witness :
  _last_error
    (self_of (run (respond_ok open_info) quiet (initialize false) tt
                (set_last_error (Some InvalidAuthError)
                                (init_device some_options))))
  = Some InvalidAuthError.
Proof.
  apply (eager_initialize_keeps_last_error (respond_ok open_info) quiet tt
           (set_last_error (Some InvalidAuthError) (init_device some_options))
           (fun _ _ => eq_refl)).
  vm_compute. reflexivity.
Defined.

(** ** Disconnecting, shutting down and notifications *)

(** X21.  [_disconnect_websocket] calls the unsubscribe function at most
    once in the life of the controller: the first call unsubscribes
    (if the function is still held) and disconnects, and a second call
    only disconnects. *)
Theorem disconnect_unsubscribes_once {W : Type}
  (respond : forall c : call, W -> W * ans c)
  (interfere : W -> RpcDevice -> RpcDevice) (w : W) (d : RpcDevice) :
  (forall w' d', _unsub_ws (interfere w' d') = _unsub_ws d') ->
  let o := run respond interfere _disconnect_websocket w d in
  let o' := run respond interfere _disconnect_websocket
                (world_of o) (self_of o) in
  calls_of o = ((if _unsub_ws d then [UnsubWs] else []) ++ [WsDisconnect])%list /\
  _unsub_ws (self_of o) = false /\
  calls_of o' = [WsDisconnect].
Proof.
  intros Hint. cbv zeta. rewrite !run_disconnect_websocket. cbv zeta.
  cbn [world_of self_of]. rewrite !Hint.
  assert (_unsub_ws (if _unsub_ws d then set_unsub_ws false d else d) = false)
    as Hoff by (destruct (_unsub_ws d) eqn:H; [reflexivity|exact H]).
  rewrite Hoff. unfold calls_of. cbn [trace_of].
  split; [|split; reflexivity].
  destruct (_unsub_ws d); reflexivity.
Qed.

Lemma disconnect_unsubscribes_once_witness :
  let o := run (respond_ok open_info) quiet _disconnect_websocket tt
               (init_device some_options) in
  let o' := run (respond_ok open_info) quiet _disconnect_websocket
                (world_of o) (self_of o) in
  calls_of o = [UnsubWs; WsDisconnect] /\
  _unsub_ws (self_of o) = false /\
  calls_of o' = [WsDisconnect].
Proof.
  apply (disconnect_unsubscribes_once (respond_ok open_info) quiet tt
           (init_device some_options)).
  intros w' d'. reflexivity.
Defined.

(** X22.  [shutdown] drops the subscriber and the unsubscribe function
    and writes nothing else: [initialized] and the cached data stay as
    they are.  Its calls are the unsubscription, if the function was
    still held, and the disconnection. *)
Theorem shutdown_effect {W : Type}
  (respond : forall c : call, W -> W * ans c)
  (interfere : W -> RpcDevice -> RpcDevice) (w : W) (d : RpcDevice) :
  let o := run respond interfere shutdown w d in
  self_of o = interfere (world_of o)
                (set_unsub_ws false (set_update_listener None d)) /\
  calls_of o = ((if _unsub_ws d then [UnsubWs] else []) ++ [WsDisconnect])%list.
Proof.
  cbv zeta. unfold shutdown. rewrite run_bindE.
  cbn [run modify ret result_of world_of self_of trace_of].
  rewrite run_disconnect_websocket. cbv zeta.
  cbn [after world_of self_of trace_of _unsub_ws set_update_listener].
  split.
  - destruct d as [o s st ev cf di pr [] l i ig le]; reflexivity.
  - unfold calls_of. cbn [trace_of app]. destruct (_unsub_ws d); reflexivity.
Qed.

Section Notifications.
Context {W : Type}.
Variable respond : forall c : call, W -> W * ans c.
Variable interfere : W -> RpcDevice -> RpcDevice.

Lemma notified_frame method params d :
  let d' := fst (notified method params d) in
  _update_listener d' = _update_listener d /\
  initialized d' = initialized d /\
  _initializing d' = _initializing d.
Proof.
  cbv zeta. unfold notified.
  repeat match goal with
         | |- context [match ?x with _ => _ end] => destruct x
         end; repeat split.
Qed.

Lemma calls_on_notification method params w d :
  calls_of (run respond interfere (_on_notification method params) w d) =
    if negb (_initializing d) && negb (initialized d)
    then [CreateTask_async_init]
    else match _update_listener d with
         | Some l =>
             if initialized d
             then [Listener l (snd (notified method params d))]
             else []
         | None => []
         end.
Proof.
  rewrite run_on_notification. cbv zeta.
  destruct (notified_frame method params d) as (Hl & Hi & Hg).
  rewrite Hi, Hg.
  destruct (negb (_initializing d) && negb (initialized d)); [reflexivity|].
  rewrite run_notify_listener, Hl, Hi.
  destruct (_update_listener d); [destruct (initialized d)|]; reflexivity.
Qed.

End Notifications.

(** X23.  After [shutdown], a notification does not reach a subscriber,
    as long as no other code has subscribed again. *)
Theorem shutdown_silences_listener {W : Type}
  (respond : forall c : call, W -> W * ans c)
  (interfere : W -> RpcDevice -> RpcDevice) (w : W) (d : RpcDevice)
  (method : string) (params : option dict) :
  (forall w' d', _update_listener d' = None ->
                 _update_listener (interfere w' d') = None) ->
  let o := run respond interfere shutdown w d in
  Forall (fun c => is_listener c = false)
         (calls_of (run respond interfere (_on_notification method params)
                        (world_of o) (self_of o))).
Proof.
  intros Hint. cbv zeta.
  assert (_update_listener (self_of (run respond interfere shutdown w d))
          = None) as Hl.
  { unfold shutdown. rewrite run_bindE.
    cbn [run modify ret result_of world_of self_of trace_of].
    rewrite run_disconnect_websocket. cbv zeta.
    cbn [after self_of]. apply Hint.
    destruct (_unsub_ws _); reflexivity. }
  rewrite calls_on_notification, Hl.
  destruct (negb _ && negb _); repeat constructor.
Qed.

Lemma shutdown_silences_listener_witness :
  let o := run (respond_ok open_info) quiet shutdown tt running_device in
  Forall (fun c => is_listener c = false)
         (calls_of (run (respond_ok open_info) quiet
                        (_on_notification "NotifyFullStatus" (Some ∅))
                        (world_of o) (self_of o))).
Proof.
  apply (shutdown_silences_listener (respond_ok open_info) quiet tt
           running_device "NotifyFullStatus" (Some ∅)).
  intros w' d' H. exact H.
Defined.

(** X24.  On a controller that is not initialized, a notification starts
    the lazy initialization and calls nobody; while an [initialize] is
    in flight it does not even do that. *)
Theorem on_notification_before_initialized {W : Type}
  (respond : forall c : call, W -> W * ans c)
  (interfere : W -> RpcDevice -> RpcDevice) (w : W) (d : RpcDevice)
  (method : string) (params : option dict) :
  initialized d = false ->
  calls_of (run respond interfere (_on_notification method params) w d)
  = if _initializing d then [] else [CreateTask_async_init].
Proof.
  intros Hi. rewrite calls_on_notification, Hi.
  destruct (_initializing d), (_update_listener d); reflexivity.
Qed.

Lemma on_notification_before_initialized_witness :
  calls_of (run (respond_ok open_info) quiet
              (_on_notification "NotifyStatus" (Some ∅)) tt
              (set_initializing true
                 (set_update_listener (Some 7) (init_device some_options))))
  = [].
Proof.
  apply (on_notification_before_initialized (respond_ok open_info) quiet tt
           (set_initializing true
              (set_update_listener (Some 7) (init_device some_options)))
           "NotifyStatus" (Some ∅)).
  reflexivity.
Defined.



(** X26.  The dispatcher keeps no record of the lazy initialization it
    has started: two notifications that arrive before an [initialize]
    has begun each start one. *)
Theorem on_notification_schedules_each_time {W : Type}
  (respond : forall c : call, W -> W * ans c)
  (interfere : W -> RpcDevice -> RpcDevice) (w : W) (d : RpcDevice)
  (method method' : string) (params params' : option dict) :
  _initializing d = false ->
  initialized d = false ->
  calls_of (run respond interfere
              (let* _ := _on_notification method params in
               _on_notification method' params') w d)
  = [CreateTask_async_init; CreateTask_async_init].
Proof.
  intros Hg Hi. rewrite run_bindE.
  pose proof (calls_on_notification respond interfere method params w d) as H1.
  pose proof (on_notification_cache respond interfere method params w d) as Hs.
  rewrite Hg, Hi in H1. cbn [negb andb] in H1.
  assert (result_of (run respond interfere (_on_notification method params) w d)
          = inr tt) as Hr.
  { rewrite run_on_notification. cbv zeta.
    destruct (notified_frame method params d) as (_ & Hi' & Hg').
    rewrite Hi', Hg', Hg, Hi. reflexivity. }
  destruct (run respond interfere (_on_notification method params) w d)
    as [w1 d1 r1 tr1]. cbn [result_of self_of world_of] in *. subst r1 d1.
  unfold calls_of, after in *. cbn [trace_of] in *.
  rewrite map_app, H1.
  pose proof (calls_on_notification respond interfere method' params' w1
                (fst (notified method params d))) as H2.
  destruct (notified_frame method params d) as (_ & Hi' & Hg').
  rewrite Hi', Hg', Hg, Hi in H2. cbn [negb andb] in H2.
  unfold calls_of in H2. rewrite H2. reflexivity.
Qed.

Lemma on_notification_schedules_each_time_witness :
  calls_of (run (respond_ok open_info) quiet
              (let* _ := _on_notification "NotifyFullStatus" (Some ∅) in
               _on_notification "NotifyEvent" (Some ∅)) tt
              (init_device some_options))
  = [CreateTask_async_init; CreateTask_async_init].
Proof.
  apply (on_notification_schedules_each_time (respond_ok open_info) quiet tt
           (init_device some_options) "NotifyFullStatus" "NotifyEvent"
           (Some ∅) (Some ∅)).
  - reflexivity.
  - reflexivity.
Defined.

(** X27.  A partial status received twice leaves the cache as it is
    after the first time. *)
Theorem notify_status_replay {W : Type}
  (respond : forall c : call, W -> W * ans c)
  (interfere : W -> RpcDevice -> RpcDevice) (w : W) (d : RpcDevice)
  (params : dict) :
  let once := run respond interfere
                (_on_notification "NotifyStatus" (Some params)) w d in
  self_of (run respond interfere
             (_on_notification "NotifyStatus" (Some params))
             (world_of once) (self_of once))
  = self_of once.
Proof.
  cbv zeta. rewrite !on_notification_cache. unfold notified. simpl.
  destruct (_status d) as [old|] eqn:Hs; simpl.
  - rewrite mergedicts_absorb. reflexivity.
  - rewrite Hs. reflexivity.
Qed.

(** ** [set_profile] *)

Lemma call_rpc_unsubscribed method params d :
  unsubscribed d -> holds unsubscribed (call_rpc method params) d.
Proof.
  unfold unsubscribed, call_rpc, await_call, modify, raise. holds_step.
Qed.

Lemma disconnect_unsubscribed d :
  unsubscribed d -> holds unsubscribed _disconnect_websocket d.
Proof.
  unfold unsubscribed, _disconnect_websocket, get_self, perform, modify,
    await_disconnect, ret. holds_step.
Qed.

Lemma initialize_unsubscribed async_init d :
  unsubscribed d -> holds unsubscribed (initialize async_init) d.
Proof.
  unfold unsubscribed, initialize, try_finally, initialize_finally,
    initialize_try, initialize_except, notify_listener,
    probe_and_authenticate, with_timeout, connect_and_configure,
    fetch_status_step, update_status, update_config, update_profiles,
    get_self, await_get_info, await_connect,
    modify, prop, perform, ret, raise.
  intros H.
  holds_step;
    try (apply call_rpc_unsubscribed; assumption);
    try (apply disconnect_unsubscribed; assumption).
Qed.

Lemma await_profile_unsubscribed polls profile_name :
  forall d, unsubscribed d ->
            holds unsubscribed (await_profile polls profile_name) d.
Proof.
  induction polls as [|n IH]; intros d Hd; simpl.
  - destruct (_shelly d) as [sh|]; [|exact I].
    destruct (sh !! "profile") as [v|]; [|exact I].
    destruct (differs_from v profile_name); exact I.
  - destruct (_shelly d) as [sh|]; [|exact I].
    destruct (sh !! "profile") as [v|]; [|exact I].
    destruct (differs_from v profile_name); [|exact I].
    simpl. intros _ d1 Hd1 [e|info] d2 Hd2; [exact I|].
    simpl. split; [exact Hd2|]. apply IH. exact Hd2.
Qed.

Lemma shutdown_unsubscribes {W : Type}
  (respond : forall c : call, W -> W * ans c)
  (interfere : W -> RpcDevice -> RpcDevice) (w : W) (d : RpcDevice) :
  (forall w' d', unsubscribed d' -> unsubscribed (interfere w' d')) ->
  unsubscribed (self_of (run respond interfere shutdown w d)).
Proof.
  intros Hint. unfold shutdown. rewrite run_modify_bind.
  apply (holds_run respond interfere unsubscribed Hint).
  - reflexivity.
  - apply disconnect_unsubscribed. reflexivity.
Qed.

(** X28.  Once the device has accepted [Shelly.SetProfile], [set_profile]
    ends without a subscriber, however the rest of it goes: the
    [shutdown] drops it and neither the polling nor the new
    [initialize] puts one back. *)
Theorem set_profile_drops_listener {W : Type}
  (respond : forall c : call, W -> W * ans c)
  (interfere : W -> RpcDevice -> RpcDevice)
  (polls : nat) (profile_name : string) (w : W) (d : RpcDevice)
  (sh : dict) (current : value) (r : dict) :
  (forall w' d', _update_listener d' = None ->
                 _update_listener (interfere w' d') = None) ->
  _shelly d = Some sh ->
  sh !! "profile" = Some current ->
  truthy current = true ->
  differs_from current profile_name = true ->
  snd (respond (WsCall "Shelly.SetProfile"
                       (Some {[ "name" := VStr profile_name ]})) w) = inr r ->
  _update_listener
    (self_of (run respond interfere (set_profile polls profile_name) w d))
  = None.
Proof.
  intros Hint Hsh Hp Ht Hd Hans.
  unfold set_profile. cbn [run]. rewrite Hsh, Hp, Ht, Hd. cbn [andb].
  rewrite run_bind, run_bindE, run_call_rpc. cbv zeta.
  destruct (respond (WsCall "Shelly.SetProfile"
                            (Some {[ "name" := VStr profile_name ]})) w)
    as [w1 a]. cbn [fst snd] in *. subst a.
  cbn [result_of world_of self_of trace_of].
  rewrite run_bindE.
  pose proof (shutdown_unsubscribes respond interfere w1 (interfere w1 d) Hint)
    as H2.
  destruct (run respond interfere shutdown w1 (interfere w1 d))
    as [w2 d2 [e|[]] tr2];
    cbn [result_of world_of self_of trace_of after run perform ret logged
         fst snd suspends] in *.
  - exact H2.
  - match goal with
    | |- _update_listener (self_of (run _ _ ?t ?w3 ?d3)) = None =>
        apply (holds_run respond interfere unsubscribed Hint t w3 d3)
    end.
    + apply Hint. exact H2.
    + apply holds_bind.
      * apply Hint. exact H2.
      * apply await_profile_unsubscribed. apply Hint. exact H2.
      * intros [[e|[]]|] d' Hd'; try exact I.
        apply holds_bind; [exact Hd'| |intros; exact I].
        apply initialize_unsubscribed. exact Hd'.
Qed.

Lemma set_profile_drops_listener_witness :
  _update_listener
    (self_of (run (respond_ok {[ "profile" := VStr "cover";
                                 "auth_en" := VBool false ]}) quiet
                (set_profile 3 "cover") tt
                (set_shelly (Some {[ "profile" := VStr "switch" ]})
                            running_device)))
  = None.
Proof.
  apply (set_profile_drops_listener
           (respond_ok {[ "profile" := VStr "cover";
                          "auth_en" := VBool false ]}) quiet
           3 "cover" tt
           (set_shelly (Some {[ "profile" := VStr "switch" ]}) running_device)
           {[ "profile" := VStr "switch" ]} (VStr "switch") ∅).
  - intros w' d' H. exact H.
  - reflexivity.
  - vm_compute. reflexivity.
  - reflexivity.
  - reflexivity.
  - reflexivity.
Defined.

(** X29.  When the device refuses [Shelly.SetProfile], [set_profile]
    raises after that one call: there is no shutdown, so the
    subscriber, the unsubscribe function and the cached identity are
    as before. *)
Theorem set_profile_rpc_failure {W : Type}
  (respond : forall c : call, W -> W * ans c)
  (interfere : W -> RpcDevice -> RpcDevice)
  (polls : nat) (profile_name : string) (w : W) (d : RpcDevice)
  (sh : dict) (current : value) (e : exn) :
  _shelly d = Some sh ->
  sh !! "profile" = Some current ->
  truthy current = true ->
  differs_from current profile_name = true ->
  snd (respond (WsCall "Shelly.SetProfile"
                       (Some {[ "name" := VStr profile_name ]})) w) = inl e ->
  let o := run respond interfere (set_profile polls profile_name) w d in
  let d1 := interfere (world_of o) d in
  calls_of o = [WsCall "Shelly.SetProfile"
                       (Some {[ "name" := VStr profile_name ]})] /\
  (exists e', result_of o = Some (inl e')) /\
  _update_listener (self_of o) = _update_listener d1 /\
  _unsub_ws (self_of o) = _unsub_ws d1 /\
  _shelly (self_of o) = _shelly d1.
Proof.
  intros Hsh Hp Ht Hd Hans. cbv zeta.
  unfold set_profile. cbn [run]. rewrite Hsh, Hp, Ht, Hd. cbn [andb].
  rewrite run_bind, run_bindE, run_call_rpc. cbv zeta.
  destruct (respond (WsCall "Shelly.SetProfile"
                            (Some {[ "name" := VStr profile_name ]})) w)
    as [w1 a]. cbn [fst snd] in *. subst a.
  destruct (bool_decide (e = InvalidAuthError \/ e = RpcCallError));
    [|destruct (is_connect_error e)];
    cbn [result_of world_of self_of trace_of after run];
    unfold calls_of; cbn [trace_of app map fst]; repeat split; eauto.
Qed.

Lemma set_profile_rpc_failure_witness :
  let o := run (respond_rpc_refused open_info) quiet (set_profile 3 "cover") tt
               (set_shelly (Some {[ "profile" := VStr "switch" ]})
                           running_device) in
  let d1 := quiet (world_of o)
                  (set_shelly (Some {[ "profile" := VStr "switch" ]})
                              running_device) in
  calls_of o = [WsCall "Shelly.SetProfile"
                       (Some {[ "name" := VStr "cover" ]})] /\
  (exists e', result_of o = Some (inl e')) /\
  _update_listener (self_of o) = _update_listener d1 /\
  _unsub_ws (self_of o) = _unsub_ws d1 /\
  _shelly (self_of o) = _shelly d1.
Proof.
  apply (set_profile_rpc_failure (respond_rpc_refused open_info) quiet
           3 "cover" tt
           (set_shelly (Some {[ "profile" := VStr "switch" ]}) running_device)
           {[ "profile" := VStr "switch" ]} (VStr "switch") RpcCallError).
  - reflexivity.
  - vm_compute. reflexivity.
  - reflexivity.
  - reflexivity.
  - reflexivity.
Defined.

(** ** [name] *)

(** X30.  On an initialized controller whose configuration has a device
    section, [name] returns the configured name when there is one that
    is not empty, and the host name (the ["id"] of the identity) when
    the name is missing, [None] or empty. *)
Theorem name_falls_back_to_hostname (d : RpcDevice) (cfg sys device : dict) :
  initialized d = true ->
  _config d = Some cfg ->
  cfg !! "sys" = Some (VDict sys) ->
  sys !! "device" = Some (VDict device) ->
  (forall n, device !! "name" = Some n -> truthy n = true -> name d = inr n) /\
  (device !! "name" = None \/ device !! "name" = Some VNone \/
   device !! "name" = Some (VStr "") -> name d = hostname d).
Proof.
  intros Hi Hc Hsys Hdev. unfold name, config. rewrite Hi, Hc. simpl.
  rewrite Hsys, Hdev. split.
  - intros n Hn Ht. rewrite Hn. simpl. rewrite Ht. reflexivity.
  - intros [Hn|[Hn|Hn]]; rewrite Hn; reflexivity.
Qed.

Lemma name_falls_back_to_hostname_witness :
  name (set_shelly (Some {[ "id" := VStr "shellyplus1-a8032ab1" ]})
          (set_config
             (Some {[ "sys" := VDict {[ "device" := VDict {[ "name" := VNone ]} ]} ]})
             running_device))
  = inr (VStr "shellyplus1-a8032ab1").
Proof.
  destruct (name_falls_back_to_hostname
              (set_shelly (Some {[ "id" := VStr "shellyplus1-a8032ab1" ]})
                 (set_config
                    (Some {[ "sys" :=
                               VDict {[ "device" :=
                                          VDict {[ "name" := VNone ]} ]} ]})
                    running_device))
              {[ "sys" := VDict {[ "device" := VDict {[ "name" := VNone ]} ]} ]}
              {[ "device" := VDict {[ "name" := VNone ]} ]}
              {[ "name" := VNone ]}) as [_ Hfallback].
  - reflexivity.
  - reflexivity.
  - vm_compute. reflexivity.
  - vm_compute. reflexivity.
  - rewrite Hfallback.
    + vm_compute. reflexivity.
    + right. left. vm_compute. reflexivity.
Defined.

